(** * Ride matching and settlement (ride_share2.py)

    A shallow embedding of the ride-sharing demo: riders, drivers, vehicles
    and rides are Python objects that refer to one another, so they live in
    a store and are addressed by reference.  Methods are computations in a
    state monad over that store which can also raise.

    Python numbers are kept abstract: the code only adds, subtracts,
    multiplies and compares them and hands them to [math.dist] and
    [round(_, 2)], so those operations form an interface ([PyNum]).  Results
    about control flow hold for every implementation of it; the two results
    that depend on the ordering of numbers state the laws they need
    ([PyNumLaws]). *)

From stdpp Require Import base option strings numbers list.

(** ** Numbers *)

Class PyNum (num : Type) := {
  zero : num;                                   (* the literal 0 *)
  inf : num;                                    (* float('inf') *)
  add : num → num → num;                        (* a + b *)
  sub : num → num → num;                        (* a - b *)
  mul : num → num → num;                        (* a * b *)
  ltb : num → num → bool;                       (* a < b *)
  geb : num → num → bool;                       (* a >= b *)
  gtb : num → num → bool;                       (* a > b *)
  round2 : num → num;                           (* round(a, 2) *)
  math_dist : num * num → num * num → num       (* math.dist(p, q) *)
}.

(** What the ordering results need of the numbers.  All of it holds of real
    numbers, and of floats as long as no NaN is involved. *)
Class PyNumLaws (num : Type) `{PyNum num} : Prop := {
  ltb_irrefl : ∀ a, ltb a a = false;
  ltb_trans : ∀ a b c, ltb a b = true → ltb b c = true → ltb a c = true;
  ltb_cotrans : ∀ a b c, ltb a c = true → ltb a b = true ∨ ltb b c = true;
  sub_geb_zero : ∀ a b, geb a b = true → geb (sub a b) zero = true;
  add_geb_zero : ∀ a b, geb a zero = true → gtb b zero = true →
                        geb (add a b) zero = true
}.

(** ** Computations *)

(** [AttributeError] is what Python raises for an attribute of [None].
    [DanglingRef] marks a reference to an object the store does not hold.  A
    Python reference keeps its object alive, so no run of the program
    raises it ([run_no_dangling]); the results below suppose the objects
    they speak of to be in the store. *)
Inductive exn := AttributeError | DanglingRef.

Inductive outcome (A : Type) :=
  | Returned (v : A)
  | Raised (e : exn).
Global Arguments Returned {A} v.
Global Arguments Raised {A} e.

(** A method call: it returns or raises, and either way leaves a store
    behind (what was assigned before a raise stays assigned). *)
Definition Comp (S A : Type) : Type := S → outcome A * S.

Definition ret {S A} (v : A) : Comp S A := λ w, (Returned v, w).

Definition bind {S A B} (m : Comp S A) (k : A → Comp S B) : Comp S B := λ w,
  match m w with
  | (Returned v, w') => k v w'
  | (Raised e, w') => (Raised e, w')
  end.

Definition raise {S A} (e : exn) : Comp S A := λ w, (Raised e, w).

Notation "'let*' x := m 'in' k" := (bind m (λ x, k))
  (at level 10, x name, m at level 100, k at level 200,
   format "'[v' 'let*'  x  :=  m  'in' '/' k ']'").
Notation "m ;;; k" := (bind m (λ _, k))
  (at level 100, k at level 200, right associativity,
   format "'[v' m  ;;; '/' k ']'").


(** ** Objects *)

Abbreviation rider_ref := nat.
Abbreviation driver_ref := nat.
Abbreviation vehicle_ref := nat.
Abbreviation ride_ref := nat.

(** [datetime.now()] is an input of the methods that read the clock. *)
Abbreviation datetime := nat.

Section RideShare.
Context {num : Type} `{PyNum num}.

Definition location : Type := num * num.

(** class Vehicle: [status] is the string 'available' or 'unavailable'. *)
Record Vehicle := mkVehicle {
  vehicle_type : string;
  license_plate : string;
  rate : num;
  status : string
}.

(** class Rider(User) *)
Record Rider := mkRider {
  rider_name : string;
  rider_email : string;
  rider_id : nat;
  rider_nid : string;
  rider_wallet : num;
  rider_current_location : location;
  rider_current_ride : option ride_ref
}.

(** class Driver(User) *)
Record Driver := mkDriver {
  driver_name : string;
  driver_email : string;
  driver_id : nat;
  driver_nid : string;
  driver_wallet : num;
  driver_current_location : location;
  driver_vehicle : vehicle_ref;
  driver_rating : list Z;
  driver_current_ride : option ride_ref
}.

(** class Ride *)
Record Ride := mkRide {
  start_location : location;
  end_location : location;
  driver : option driver_ref;
  rider : rider_ref;
  vehicle : vehicle_ref;
  start_time : option datetime;
  end_time : option datetime;
  estimated_fare : num
}.

(** class RideRequest *)
Record RideRequest := mkRideRequest {
  request_rider : rider_ref;
  destination : location
}.

(** Lines written by [print]. *)
Inductive Msg :=
  | MsgRideEnded (fare : num)                     (* "Ride ended. Fare: {fare}" *)
  | MsgNotEnoughBalance                           (* "Not enough balance!" *)
  | MsgRideMatched (name : string) (fare : num)   (* "Ride matched with driver: ..." *)
  | MsgNoAvailableDriver.                         (* "No available driver found." *)

(** The store: every object of each class, and what was printed so far. *)
Record World := mkWorld {
  riders : list Rider;
  drivers : list Driver;
  vehicles : list Vehicle;
  rides : list Ride;
  stdout : list Msg
}.

(** *** Attribute assignment *)

Definition assign_status (s : string) (v : Vehicle) : Vehicle :=
  mkVehicle (vehicle_type v) (license_plate v) (rate v) s.

Definition assign_rider_wallet (x : num) (r : Rider) : Rider :=
  mkRider (rider_name r) (rider_email r) (rider_id r) (rider_nid r) x
          (rider_current_location r) (rider_current_ride r).

Definition assign_rider_current_ride (x : option ride_ref) (r : Rider) : Rider :=
  mkRider (rider_name r) (rider_email r) (rider_id r) (rider_nid r)
          (rider_wallet r) (rider_current_location r) x.

Definition assign_driver_wallet (x : num) (d : Driver) : Driver :=
  mkDriver (driver_name d) (driver_email d) (driver_id d) (driver_nid d) x
           (driver_current_location d) (driver_vehicle d) (driver_rating d)
           (driver_current_ride d).

Definition assign_driver_current_location (x : location) (d : Driver) : Driver :=
  mkDriver (driver_name d) (driver_email d) (driver_id d) (driver_nid d)
           (driver_wallet d) x (driver_vehicle d) (driver_rating d)
           (driver_current_ride d).

Definition assign_driver_rating (x : list Z) (d : Driver) : Driver :=
  mkDriver (driver_name d) (driver_email d) (driver_id d) (driver_nid d)
           (driver_wallet d) (driver_current_location d) (driver_vehicle d) x
           (driver_current_ride d).

Definition assign_driver_current_ride (x : option ride_ref) (d : Driver) : Driver :=
  mkDriver (driver_name d) (driver_email d) (driver_id d) (driver_nid d)
           (driver_wallet d) (driver_current_location d) (driver_vehicle d)
           (driver_rating d) x.

Definition assign_driver (x : option driver_ref) (r : Ride) : Ride :=
  mkRide (start_location r) (end_location r) x (rider r) (vehicle r)
         (start_time r) (end_time r) (estimated_fare r).

Definition assign_start_time (x : option datetime) (r : Ride) : Ride :=
  mkRide (start_location r) (end_location r) (driver r) (rider r) (vehicle r)
         x (end_time r) (estimated_fare r).

Definition assign_end_time (x : option datetime) (r : Ride) : Ride :=
  mkRide (start_location r) (end_location r) (driver r) (rider r) (vehicle r)
         (start_time r) x (estimated_fare r).

Definition assign_estimated_fare (x : num) (r : Ride) : Ride :=
  mkRide (start_location r) (end_location r) (driver r) (rider r) (vehicle r)
         (start_time r) (end_time r) x.

Definition with_riders (x : list Rider) (w : World) : World :=
  mkWorld x (drivers w) (vehicles w) (rides w) (stdout w).
Definition with_drivers (x : list Driver) (w : World) : World :=
  mkWorld (riders w) x (vehicles w) (rides w) (stdout w).
Definition with_vehicles (x : list Vehicle) (w : World) : World :=
  mkWorld (riders w) (drivers w) x (rides w) (stdout w).
Definition with_rides (x : list Ride) (w : World) : World :=
  mkWorld (riders w) (drivers w) (vehicles w) x (stdout w).
Definition with_stdout (x : list Msg) (w : World) : World :=
  mkWorld (riders w) (drivers w) (vehicles w) (rides w) x.

(** ** Store primitives *)

Definition M : Type → Type := Comp World.

Definition print (m : Msg) : M unit := λ w,
  (Returned tt, with_stdout (stdout w ++ [m]) w).

Definition load {A} (store : World → list A) (i : nat) : M A := λ w,
  match store w !! i with
  | Some x => (Returned x, w)
  | None => (Raised DanglingRef, w)
  end.

Definition modify {A} (store : World → list A)
    (put : list A → World → World) (i : nat) (f : A → A) : M unit := λ w,
  match store w !! i with
  | Some x => (Returned tt, put (<[i := f x]> (store w)) w)
  | None => (Raised DanglingRef, w)
  end.

Definition get_rider := load riders.
Definition get_driver := load drivers.
Definition get_vehicle := load vehicles.
Definition get_ride := load rides.
Definition modify_rider := modify riders with_riders.
Definition modify_driver := modify drivers with_drivers.
Definition modify_vehicle := modify vehicles with_vehicles.
Definition modify_ride := modify rides with_rides.

(** A new object gets the next free reference. *)
Definition new_ride (r : Ride) : M ride_ref := λ w,
  (Returned (length (rides w)), with_rides (rides w ++ [r]) w).

(** ** Methods *)

(** Vehicle.start_drive: Car, Bike and CNG define it alike. *)
Definition start_drive (self : vehicle_ref) : M unit :=
  modify_vehicle self (assign_status "unavailable").

(** Rider.load_cash *)
Definition load_cash (self : rider_ref) (amount : num) : M unit :=
  if gtb amount zero then
    modify_rider self (λ r, assign_rider_wallet (add (rider_wallet r) amount) r)
  else ret tt.

(** Ride.set_driver *)
Definition set_driver (self : ride_ref) (d : driver_ref) : M unit :=
  modify_ride self (assign_driver (Some d)).

(** Driver.accept_ride *)
Definition accept_ride (self : driver_ref) (ride : ride_ref) : M unit :=
  modify_driver self (assign_driver_current_ride (Some ride));;;
  set_driver ride self.

(** Driver.update_location *)
Definition update_location (self : driver_ref) (loc : location) : M unit :=
  modify_driver self (assign_driver_current_location loc).

(** Driver.add_rating *)
Definition add_rating (self : driver_ref) (rating : Z) : M unit :=
  modify_driver self (λ d, assign_driver_rating (driver_rating d ++ [rating]) d).

(** Ride.calculate_fare *)
Definition calculate_fare (self : ride_ref) : M num :=
  let* r := get_ride self in
  let* v := get_vehicle (vehicle r) in
  let distance := math_dist (start_location r) (end_location r) in
  ret (round2 (mul distance (rate v))).

(** Ride.__init__: the object exists before [estimated_fare] is bound, and
    [calculate_fare] reads the attributes bound so far; the [zero] below is
    never read. *)
Definition Ride_init (start_loc end_loc : location) (rdr : rider_ref)
    (veh : vehicle_ref) : M ride_ref :=
  let* self := new_ride (mkRide start_loc end_loc None rdr veh None None zero) in
  let* fare := calculate_fare self in
  modify_ride self (assign_estimated_fare fare);;;
  ret self.

(** Ride.start_ride *)
Definition start_ride (self : ride_ref) (now : datetime) : M unit :=
  modify_ride self (assign_start_time (Some now)).

(** Ride.end_ride *)
Definition end_ride (self : ride_ref) (rating : Z) (now : datetime) : M unit :=
  modify_ride self (assign_end_time (Some now));;;
  let* r := get_ride self in
  let fare := estimated_fare r in
  let* rd := get_rider (rider r) in
  if geb (rider_wallet rd) fare then
    modify_rider (rider r)
      (λ x, assign_rider_wallet (sub (rider_wallet x) fare) x);;;
    let* d := match driver r with
              | Some d => ret d
              | None => raise AttributeError
              end in
    modify_driver d (λ x, assign_driver_wallet (add (driver_wallet x) fare) x);;;
    add_rating d rating;;;
    print (MsgRideEnded fare)
  else
    print MsgNotEnoughBalance.

(** The [for] loop of RideMatching.find_driver, with its two variables. *)
Fixpoint find_driver_loop (rider_location : location) (pool : list driver_ref)
    (closest_driver : option driver_ref) (min_distance : num)
    : M (option driver_ref * num) :=
  match pool with
  | [] => ret (closest_driver, min_distance)
  | d :: pool' =>
      let* drv := get_driver d in
      let* veh := get_vehicle (driver_vehicle drv) in
      if String.eqb (status veh) "available" then
        let dist := math_dist (driver_current_location drv) rider_location in
        if ltb dist min_distance then
          find_driver_loop rider_location pool' (Some d) dist
        else
          find_driver_loop rider_location pool' closest_driver min_distance
      else
        find_driver_loop rider_location pool' closest_driver min_distance
  end.

(** RideMatching.find_driver; [available_drivers] is the list the matcher
    was built with. *)
Definition find_driver (available_drivers : list driver_ref)
    (ride_request : RideRequest) : M (option ride_ref) :=
  let* rd := get_rider (request_rider ride_request) in
  let rider_location := rider_current_location rd in
  let* found := find_driver_loop rider_location available_drivers None inf in
  match fst found with
  | Some closest_driver =>
      let* drv := get_driver closest_driver in
      let* ride := Ride_init rider_location (destination ride_request)
                     (request_rider ride_request) (driver_vehicle drv) in
      accept_ride closest_driver ride;;;
      let* r := get_ride ride in
      print (MsgRideMatched (driver_name drv) (estimated_fare r));;;
      ret (Some ride)
  | None =>
      print MsgNoAvailableDriver;;;
      ret None
  end.

(** Rider.request_ride *)
Definition request_ride (self : rider_ref) (dest : location)
    (ride_matching : list driver_ref) : M unit :=
  let* r := get_rider self in
  match rider_current_ride r with
  | None =>
      let ride_request := mkRideRequest self dest in
      let* ride := find_driver ride_matching ride_request in
      modify_rider self (assign_rider_current_ride ride)
  | Some _ => ret tt
  end.

(** ** Sequences of calls *)

(** One call made by the surrounding program. *)
Inductive Call :=
  | CallLoadCash (self : rider_ref) (amount : num)
  | CallRequestRide (self : rider_ref) (dest : location)
      (ride_matching : list driver_ref)
  | CallStartRide (self : ride_ref) (now : datetime)
  | CallEndRide (self : ride_ref) (rating : Z) (now : datetime)
  | CallUpdateLocation (self : driver_ref) (loc : location)
  | CallStartDrive (self : vehicle_ref).

Definition call (c : Call) : M unit :=
  match c with
  | CallLoadCash self amount => load_cash self amount
  | CallRequestRide self dest ride_matching =>
      request_ride self dest ride_matching
  | CallStartRide self now => start_ride self now
  | CallEndRide self rating now => end_ride self rating now
  | CallUpdateLocation self loc => update_location self loc
  | CallStartDrive self => start_drive self
  end.

(** The store after a sequence of calls, whatever each of them returned or
    raised. *)
Fixpoint run (cs : list Call) (w : World) : World :=
  match cs with
  | [] => w
  | c :: cs' => run cs' (snd (call c w))
  end.

(** ** Reading the store *)

(** The vehicle a driver owns. *)
Definition vehicle_of (w : World) (d : driver_ref) : option Vehicle :=
  match drivers w !! d with
  | Some drv => vehicles w !! driver_vehicle drv
  | None => None
  end.

(** The test the matcher applies to a driver: [driver.vehicle.status ==
    'available']. *)
Definition available (w : World) (d : driver_ref) : bool :=
  match vehicle_of w d with
  | Some v => String.eqb (status v) "available"
  | None => false
  end.

(** The distance the matcher computes for a driver. *)
Definition distance_from (w : World) (p : location) (d : driver_ref) : num :=
  match drivers w !! d with
  | Some drv => math_dist (driver_current_location drv) p
  | None => inf
  end.

(** The source has no status attribute.  The lifecycle state the
    specification speaks of is read off the two timestamps. *)
Inductive Status := Created | Started | Ended.

Definition ride_status (r : Ride) : Status :=
  match end_time r, start_time r with
  | Some _, _ => Ended
  | None, Some _ => Started
  | None, None => Created
  end.

(** A call fails when it raises. *)
Definition fails {A} (res : outcome A * World) : Prop :=
  ∃ e, fst res = Raised e.

Definition nonneg (x : num) : Prop := geb x zero = true.

(** ** Stores a program can build *)

(** Every reference the code follows leads to an object of the store:
    [driver.vehicle], and [ride.rider], [ride.vehicle], [ride.driver]. *)
Definition wf (w : World) : Prop :=
  Forall (λ d, driver_vehicle d < length (vehicles w)) (drivers w) ∧
  Forall (λ r, rider r < length (riders w) ∧
               vehicle r < length (vehicles w) ∧
               from_option (λ d, d < length (drivers w)) True (driver r))
         (rides w).

(** The call is made on an object of the store, with drivers of the store
    for a pool. *)
Definition call_ok (w : World) (c : Call) : Prop :=
  match c with
  | CallLoadCash self _ => self < length (riders w)
  | CallRequestRide self _ ride_matching =>
      self < length (riders w) ∧
      Forall (λ d, d < length (drivers w)) ride_matching
  | CallStartRide self _ => self < length (rides w)
  | CallEndRide self _ _ => self < length (rides w)
  | CallUpdateLocation self _ => self < length (drivers w)
  | CallStartDrive self => self < length (vehicles w)
  end.

(** The store has grown, if at all, by rides only. *)
Definition grown (w w' : World) : Prop :=
  length (riders w') = length (riders w) ∧
  length (drivers w') = length (drivers w) ∧
  length (vehicles w') = length (vehicles w) ∧
  length (rides w) ≤ length (rides w').

(** What each call of a sequence returned or raised. *)
Fixpoint outcomes (cs : list Call) (w : World) : list (outcome unit) :=
  match cs with
  | [] => []
  | c :: cs' => fst (call c w) :: outcomes cs' (snd (call c w))
  end.

(** ** What a call leaves alone *)

(** [stable R m]: the store [m] leaves behind is [R]-related to the one it
    started from, whether [m] returns or raises. *)
Definition stable {A} (R : relation World) (m : M A) : Prop :=
  ∀ w, R w (snd (m w)).

(** [keeps proj]: the component [proj] of the store is untouched. *)
Definition keeps {B} (proj : World → B) : relation World :=
  λ w w', proj w' = proj w.

(** [I] holds afterwards if it held before. *)
Definition preserves (I : World → Prop) : relation World := λ w w', I w → I w'.

(** Every ride of [w] is still there in [w'], with the fare it had. *)
Definition fares_kept : relation World := λ w w',
  ∀ i r, rides w !! i = Some r →
         ∃ r', rides w' !! i = Some r' ∧ estimated_fare r' = estimated_fare r.

(** No rider's wallet is below zero. *)
Definition wallets_nonneg (w : World) : Prop :=
  Forall (λ r, nonneg (rider_wallet r)) (riders w).

(** A rider who has a current ride has the same one afterwards. *)
Definition current_rides_kept : relation World := λ w w',
  ∀ i r k, riders w !! i = Some r → rider_current_ride r = Some k →
           ∃ r', riders w' !! i = Some r' ∧ rider_current_ride r' = Some k.

(** Every driver is still there, with the vehicle they had and with ratings
    that extend the ones they had. *)
Definition ratings_extended : relation World := λ w w',
  ∀ d dv, drivers w !! d = Some dv →
          ∃ dv', drivers w' !! d = Some dv' ∧
                 driver_vehicle dv' = driver_vehicle dv ∧
                 driver_rating dv `prefix_of` driver_rating dv'.

(** A driver the matcher would pass over is passed over afterwards too. *)
Definition unavailable_kept : relation World := λ w w',
  ∀ d, available w d = false → available w' d = false.

(** The wallets of the riders, the wallets of the drivers and the ratings
    of the drivers, in store order. *)
Definition accounts (w : World) : list num * list num * list (list Z) :=
  (rider_wallet <$> riders w, driver_wallet <$> drivers w,
   driver_rating <$> drivers w).

(** Every ride of [w] is still there in [w'], the same but for its two
    timestamps. *)
Definition ride_records_kept : relation World := λ w w',
  ∀ i r, rides w !! i = Some r →
         ∃ r', rides w' !! i = Some r' ∧
               start_location r' = start_location r ∧
               end_location r' = end_location r ∧
               rider r' = rider r ∧
               vehicle r' = vehicle r ∧
               driver r' = driver r ∧
               estimated_fare r' = estimated_fare r.

(** The calls other than [load_cash] and [end_ride]. *)
Definition is_free (c : Call) : bool :=
  match c with
  | CallLoadCash _ _ | CallEndRide _ _ _ => false
  | _ => true
  end.

End RideShare.

(** ** Whole numbers as an instance

    Python's values wherever coordinates, rates and balances are integers
    and the distance comes out whole (3-4-5 triangles and the like):
    [round(_, 2)] then changes nothing.  Elsewhere [math_dist] is the root
    rounded down.  [inf] lies above every finite double. *)
Definition ZNum : PyNum Z := {|
  zero := 0%Z;
  inf := (2 ^ 1024)%Z;
  add := Z.add;
  sub := Z.sub;
  mul := Z.mul;
  ltb := Z.ltb;
  geb := Z.geb;
  gtb := Z.gtb;
  round2 := λ x, x;
  math_dist := λ p q,
    Z.sqrt ((p.1 - q.1) * (p.1 - q.1) + (p.2 - q.2) * (p.2 - q.2))%Z
|}.

(** ** A town to run the code in

    Two riders, two drivers, a car and a bike, laid out so that every
    distance is whole: Bob is 1 away from the riders, John 10, and the
    destination 5. *)
Module Demo.
#[local] Existing Instance ZNum.
Open Scope Z_scope.

Definition car : Vehicle := mkVehicle "car" "CAR-123" 15 "available".
Definition bike : Vehicle := mkVehicle "bike" "BIKE-456" 8 "available".
Definition alice : Rider :=
  mkRider "Alice" "alice@email.com" 1 "1234" 500 (10, 10) None.
Definition carol : Rider :=
  mkRider "Carol" "carol@email.com" 2 "2345" 50 (10, 10) None.
Definition bob : Driver :=
  mkDriver "Bob" "bob@email.com" 3 "5678" 0 (11, 10) 0%nat [] None.
Definition john : Driver :=
  mkDriver "John" "john@email.com" 4 "8910" 0 (16, 18) 1%nat [] None.

Definition town : World := mkWorld [alice; carol] [bob; john] [car; bike] [] [].

(** The list the matcher is built with: both drivers. *)
Definition pool : list nat := [0%nat; 1%nat].

Definition uptown : location := (13, 14).

(** Alice (rider 0) has been matched; her ride is ride 0. *)
Definition alice_matched : World :=
  run [CallRequestRide 0%nat uptown pool] town.

(** Alice's ride has started, at time 1. *)
Definition alice_riding : World :=
  run [CallRequestRide 0%nat uptown pool; CallStartRide 0%nat 1%nat] town.

(** Carol (rider 1), who holds 50, has been matched instead. *)
Definition carol_matched : World :=
  run [CallRequestRide 1%nat uptown pool] town.

(** Carol's ride has started, at time 1. *)
Definition carol_riding : World :=
  run [CallRequestRide 1%nat uptown pool; CallStartRide 0%nat 1%nat] town.

(** Carol as she is in [carol_riding]. *)
Definition carol_riding_rider : Rider :=
  mkRider "Carol" "carol@email.com" 2 "2345" 50 (10, 10) (Some 0%nat).

(** Alice and Bob as they are in [alice_riding], and the ride between them. *)
Definition alice_riding_rider : Rider :=
  mkRider "Alice" "alice@email.com" 1 "1234" 500 (10, 10) (Some 0%nat).
Definition alice_riding_driver : Driver :=
  mkDriver "Bob" "bob@email.com" 3 "5678" 0 (11, 10) 0%nat [] (Some 0%nat).
Definition alice_riding_ride : Ride :=
  mkRide (10, 10) uptown (Some 0%nat) 0%nat 0%nat (Some 1%nat) None 75.

(** As [alice_riding], but Bob's car was driven off after the match. *)
Definition alice_riding_car_out : World :=
  run [CallRequestRide 0%nat uptown pool; CallStartDrive 0%nat;
       CallStartRide 0%nat 1%nat] town.

(** John has moved next to the riders: both drivers are 1 away. *)
Definition level : World := run [CallUpdateLocation 1%nat (10, 11)] town.

(** A ride for Alice built by hand, with [Ride(...)]: it has no driver. *)
Definition hand_built : World := snd (Ride_init (10, 10) uptown 0%nat 0%nat town).

(** The ride of [hand_built]. *)
Definition hand_built_ride : Ride :=
  mkRide (10, 10) uptown None 0%nat 0%nat None None 75.

(** Both vehicles have been driven off. *)
Definition all_busy : World :=
  run [CallStartDrive 0%nat; CallStartDrive 1%nat] town.

(** Dave, a rider constructed with an initial amount of -20. *)
Definition dave : Rider :=
  mkRider "Dave" "dave@email.com" 5 "3456" (-20) (10, 10) None.

(** The town with Dave in it too, Carol's ride started as in
    [carol_riding]. *)
Definition carol_riding_beside_dave : World :=
  run [CallRequestRide 1%nat uptown pool; CallStartRide 0%nat 1%nat]
    (mkWorld [alice; carol; dave] [bob; john] [car; bike] [] []).

End Demo.

(** * The program around the store

    The rest of the source: the constructors, which draw ids from the
    counter [User.id_counter], the company [Ride_Sharing] with its lists,
    and the matcher [RideMatching], which keeps the very list it was given.
    Lists are objects too, so that a list held in two places is one list. *)

(** Integer literals of the source other than 0: the rates 15, 8 and 5. *)
Class PyInt (num : Type) := of_int : Z → num.

Abbreviation list_ref := nat.
Abbreviation company_ref := nat.
Abbreviation matcher_ref := nat.

Section Program.
Context {num : Type} `{PyNum num} `{PyInt num}.
#[local] Abbreviation World := (@World num).
#[local] Abbreviation M := (@M num).
#[local] Abbreviation Vehicle := (@Vehicle num).
#[local] Abbreviation Rider := (@Rider num).
#[local] Abbreviation Driver := (@Driver num).
#[local] Abbreviation RideRequest := (@RideRequest num).
#[local] Abbreviation Call := (@Call num).
#[local] Abbreviation location := (@location num).

(** class Ride_Sharing: its three attributes [drivers], [riders] and
    [rides] are lists. *)
Record Ride_Sharing := mkRide_Sharing {
  company_name : string;
  company_drivers : list_ref;
  company_riders : list_ref;
  company_rides : list_ref
}.

(** Everything the program holds: the objects of the store, the class
    attribute [User.id_counter], the list objects, the companies, and the
    matchers, each of which is its attribute [available_drivers]. *)
Record Program := mkProgram {
  objects : World;
  id_counter : nat;
  lists : list (list nat);
  companies : list Ride_Sharing;
  matchers : list list_ref
}.

(** The program before its first statement: the class body of [User] has
    set [id_counter = 1]. *)
Definition start : Program := mkProgram (mkWorld [] [] [] [] []) 1 [] [] [].

Definition with_objects (x : World) (p : Program) : Program :=
  mkProgram x (id_counter p) (lists p) (companies p) (matchers p).
Definition with_id_counter (x : nat) (p : Program) : Program :=
  mkProgram (objects p) x (lists p) (companies p) (matchers p).
Definition with_lists (x : list (list nat)) (p : Program) : Program :=
  mkProgram (objects p) (id_counter p) x (companies p) (matchers p).
Definition with_companies (x : list Ride_Sharing) (p : Program) : Program :=
  mkProgram (objects p) (id_counter p) (lists p) x (matchers p).
Definition with_matchers (x : list list_ref) (p : Program) : Program :=
  mkProgram (objects p) (id_counter p) (lists p) (companies p) x.

Definition P : Type → Type := Comp Program.

(** A method of the store, run inside the program. *)
Definition lift {A} (m : M A) : P A := λ p,
  (fst (m (objects p)), with_objects (snd (m (objects p))) p).

Definition get_list (l : list_ref) : P (list nat) := λ p,
  match lists p !! l with
  | Some x => (Returned x, p)
  | None => (Raised DanglingRef, p)
  end.

Definition get_company (c : company_ref) : P Ride_Sharing := λ p,
  match companies p !! c with
  | Some x => (Returned x, p)
  | None => (Raised DanglingRef, p)
  end.

Definition get_matcher (m : matcher_ref) : P list_ref := λ p,
  match matchers p !! m with
  | Some x => (Returned x, p)
  | None => (Raised DanglingRef, p)
  end.

(** [[]]: a new, empty list. *)
Definition new_list : P list_ref := λ p,
  (Returned (length (lists p)), with_lists (lists p ++ [[]]) p).

(** [l.append(x)] *)
Definition list_append (l : list_ref) (x : nat) : P unit := λ p,
  match lists p !! l with
  | Some xs => (Returned tt, with_lists (<[l := xs ++ [x]]> (lists p)) p)
  | None => (Raised DanglingRef, p)
  end.

Definition new_rider (r : Rider) : M rider_ref := λ w,
  (Returned (length (riders w)), with_riders (riders w ++ [r]) w).

Definition new_driver (d : Driver) : M driver_ref := λ w,
  (Returned (length (drivers w)), with_drivers (drivers w ++ [d]) w).

Definition new_vehicle (v : Vehicle) : M vehicle_ref := λ w,
  (Returned (length (vehicles w)), with_vehicles (vehicles w ++ [v]) w).

(** Ride_Sharing.__init__ *)
Definition Ride_Sharing_init (name : string) : P company_ref :=
  let* ds := new_list in
  let* rs := new_list in
  let* rds := new_list in
  λ p, (Returned (length (companies p)),
        with_companies (companies p ++ [mkRide_Sharing name ds rs rds]) p).

(** Ride_Sharing.add_rider *)
Definition add_rider (self : company_ref) (r : rider_ref) : P unit :=
  let* co := get_company self in
  list_append (company_riders co) r.

(** Ride_Sharing.add_driver *)
Definition add_driver (self : company_ref) (d : driver_ref) : P unit :=
  let* co := get_company self in
  list_append (company_drivers co) d.

(** The part of User.__init__ that goes beyond binding attributes: the id
    is the counter, and the counter moves on. *)
Definition User_init : P nat := λ p,
  (Returned (id_counter p), with_id_counter (S (id_counter p)) p).

(** Rider.__init__: the wallet, first 0, is the initial amount. *)
Definition Rider_init (name email nid : string) (current_location : location)
    (initial_amount : num) : P rider_ref :=
  let* uid := User_init in
  lift (new_rider (mkRider name email uid nid initial_amount current_location None)).

(** Driver.__init__ *)
Definition Driver_init (name email nid : string) (current_location : location)
    (veh : vehicle_ref) : P driver_ref :=
  let* uid := User_init in
  lift (new_driver (mkDriver name email uid nid zero current_location veh [] None)).

(** Vehicle.__init__ *)
Definition Vehicle_init (type plate : string) (r : num) : P vehicle_ref :=
  lift (new_vehicle (mkVehicle type plate r "available")).

(** Car.__init__, Bike.__init__, CNG.__init__ *)
Definition Car_init (plate : string) : P vehicle_ref :=
  Vehicle_init "car" plate (of_int 15).
Definition Bike_init (plate : string) : P vehicle_ref :=
  Vehicle_init "bike" plate (of_int 8).
Definition CNG_init (plate : string) : P vehicle_ref :=
  Vehicle_init "cng" plate (of_int 5).

(** RideMatching.__init__: the matcher keeps the list itself, not a copy. *)
Definition RideMatching_init (drivers_list : list_ref) : P matcher_ref := λ p,
  (Returned (length (matchers p)), with_matchers (matchers p ++ [drivers_list]) p).

(** RideMatching.find_driver, on a matcher of the program: the loop runs
    over the list as it is now. *)
Definition RideMatching_find_driver (self : matcher_ref)
    (ride_request : RideRequest) : P (option ride_ref) :=
  let* l := get_matcher self in
  let* available_drivers := get_list l in
  lift (find_driver available_drivers ride_request).

(** Rider.request_ride, given a matcher of the program. *)
Definition Rider_request_ride (self : rider_ref) (dest : location)
    (ride_matching : matcher_ref) : P unit :=
  let* r := lift (get_rider self) in
  match rider_current_ride r with
  | None =>
      let ride_request := mkRideRequest self dest in
      let* ride := RideMatching_find_driver ride_matching ride_request in
      lift (modify_rider self (assign_rider_current_ride ride))
  | Some _ => ret tt
  end.

(** One statement of a program. *)
Inductive Step :=
  | StepCompany (name : string)
  | StepAddRider (self : company_ref) (r : rider_ref)
  | StepAddDriver (self : company_ref) (d : driver_ref)
  | StepRider (name email nid : string) (current_location : location)
      (initial_amount : num)
  | StepDriver (name email nid : string) (current_location : location)
      (veh : vehicle_ref)
  | StepCar (plate : string)
  | StepBike (plate : string)
  | StepCNG (plate : string)
  | StepMatcher (drivers_list : list_ref)
  | StepRequestRide (self : rider_ref) (dest : location)
      (ride_matching : matcher_ref)
  | StepCall (c : Call).

Definition forget {A} (m : P A) : P unit := let* _ := m in ret tt.

Definition step (s : Step) : P unit :=
  match s with
  | StepCompany name => forget (Ride_Sharing_init name)
  | StepAddRider self r => add_rider self r
  | StepAddDriver self d => add_driver self d
  | StepRider name email nid loc amount =>
      forget (Rider_init name email nid loc amount)
  | StepDriver name email nid loc veh =>
      forget (Driver_init name email nid loc veh)
  | StepCar plate => forget (Car_init plate)
  | StepBike plate => forget (Bike_init plate)
  | StepCNG plate => forget (CNG_init plate)
  | StepMatcher l => forget (RideMatching_init l)
  | StepRequestRide self dest m => Rider_request_ride self dest m
  | StepCall c => lift (call c)
  end.

(** The program after a sequence of statements. *)
Fixpoint steps (ss : list Step) (p : Program) : Program :=
  match ss with
  | [] => p
  | s :: ss' => steps ss' (snd (step s p))
  end.

(** The ids of all users, riders first. *)
Definition user_ids (w : World) : list nat :=
  (rider_id <$> riders w) ++ (driver_id <$> drivers w).

(** No two users share an id, and the ids lie from 1 up to the counter,
    which is not among them. *)
Definition ids_fresh (p : Program) : Prop :=
  NoDup (user_ids (objects p)) ∧
  Forall (λ i, 1 ≤ i < id_counter p) (user_ids (objects p)) ∧
  1 ≤ id_counter p.

(** Neither the users' ids nor the counter have moved. *)
Definition ids_kept : relation Program := λ p p',
  user_ids (objects p') = user_ids (objects p) ∧ id_counter p' = id_counter p.

(** The lists of the program are those of its companies, three each and in
    the order they were made, and the third of each is empty. *)
Definition lists_laid_out (p : Program) : Prop :=
  length (lists p) = 3 * length (companies p) ∧
  ∀ k co, companies p !! k = Some co →
    company_drivers co = 3 * k ∧
    company_riders co = 3 * k + 1 ∧
    company_rides co = 3 * k + 2 ∧
    lists p !! (3 * k + 2) = Some [].

(** As [stable], for the program. *)
Definition pstable {A} (R : relation Program) (m : P A) : Prop :=
  ∀ p, R p (snd (m p)).

End Program.

(** Whole numbers stand for themselves. *)
Definition ZInt : PyInt Z := λ z, z.

(** ** An office to run the program in

    The test run of the source, with John and the destination placed as in
    [Demo.town] so that every distance is whole. *)
Module Office.
#[local] Existing Instance ZNum.
#[local] Existing Instance ZInt.
Open Scope Z_scope.

(** Up to the creation of the matcher, with only Bob registered. *)
Definition opening : list Step :=
  [StepCompany "UrbanGo";
   StepRider "Alice" "alice@email.com" "1234" (10, 10) 500;
   StepAddRider 0%nat 0%nat;
   StepCar "CAR-123";
   StepDriver "Bob" "bob@email.com" "5678" (11, 10) 0%nat;
   StepAddDriver 0%nat 0%nat;
   StepMatcher 0%nat].

(** John is constructed only after the matcher. *)
Definition hiring : list Step :=
  [StepBike "BIKE-456";
   StepDriver "John" "john@email.com" "8910" (16, 18) 1%nat].

(** The ride itself. *)
Definition riding : list Step :=
  [StepRequestRide 0%nat (13, 14) 0%nat;
   StepCall (CallStartRide 0%nat 1%nat);
   StepCall (CallEndRide 0%nat 5 2%nat)].

Definition opened : Program := steps (opening ++ hiring) start.

(** The company of [opened]. *)
Definition urban_go : Ride_Sharing := mkRide_Sharing "UrbanGo" 0%nat 1%nat 2%nat.

End Office.

(** * Every method, called on its own

    The calls of [Call] are the ones a ride goes through in a program.  The
    classes offer more: the constructors, and [set_driver],
    [calculate_fare], [accept_ride], [add_rating] and [find_driver], which
    the code calls from inside other methods and which a program can call
    directly as well.  With them [Method] has every method of the source
    that reads or writes a rider, a driver, a vehicle or a ride, but for
    [display_profile], which only prints; the methods of [Ride_Sharing] and
    the constructor of [RideMatching] work on lists, outside the store. *)

Section Methods.
Context {num : Type} `{PyNum num}.
#[local] Abbreviation World := (@World num).
#[local] Abbreviation M := (@M num).
#[local] Abbreviation Vehicle := (@Vehicle num).
#[local] Abbreviation Rider := (@Rider num).
#[local] Abbreviation Driver := (@Driver num).
#[local] Abbreviation RideRequest := (@RideRequest num).
#[local] Abbreviation Call := (@Call num).
#[local] Abbreviation location := (@location num).

(** One call of a method or a constructor of the store.  [MethodNewRider],
    [MethodNewDriver] and [MethodNewVehicle] stand for Rider(...),
    Driver(...) and Car(...), Bike(...), CNG(...), with whatever attributes
    the new object is given; [MethodNewRide] is Ride(...). *)
Inductive Method :=
  | MethodCall (c : Call)
  | MethodNewRider (r : Rider)
  | MethodNewDriver (d : Driver)
  | MethodNewVehicle (v : Vehicle)
  | MethodNewRide (start_loc end_loc : location) (rdr : rider_ref)
      (veh : vehicle_ref)
  | MethodSetDriver (self : ride_ref) (d : driver_ref)
  | MethodCalculateFare (self : ride_ref)
  | MethodAcceptRide (self : driver_ref) (ride : ride_ref)
  | MethodAddRating (self : driver_ref) (rating : Z)
  | MethodFindDriver (available_drivers : list driver_ref)
      (ride_request : RideRequest).

Definition invoke (m : Method) : M unit :=
  match m with
  | MethodCall c => call c
  | MethodNewRider r => let* _ := new_rider r in ret tt
  | MethodNewDriver d => let* _ := new_driver d in ret tt
  | MethodNewVehicle v => let* _ := new_vehicle v in ret tt
  | MethodNewRide start_loc end_loc rdr veh =>
      let* _ := Ride_init start_loc end_loc rdr veh in ret tt
  | MethodSetDriver self d => set_driver self d
  | MethodCalculateFare self => let* _ := calculate_fare self in ret tt
  | MethodAcceptRide self ride => accept_ride self ride
  | MethodAddRating self rating => add_rating self rating
  | MethodFindDriver available_drivers ride_request =>
      let* _ := find_driver available_drivers ride_request in ret tt
  end.

(** The store after a sequence of them, whatever each returned or raised. *)
Fixpoint run_methods (ms : list Method) (w : World) : World :=
  match ms with
  | [] => w
  | m :: ms' => run_methods ms' (snd (invoke m w))
  end.

(** Every ride of [w] is still there in [w'], with the route, the rider, the
    vehicle and the fare it had. *)
Definition ride_terms_kept : relation World := λ w w',
  ∀ i r, rides w !! i = Some r →
         ∃ r', rides w' !! i = Some r' ∧
               start_location r' = start_location r ∧
               end_location r' = end_location r ∧
               rider r' = rider r ∧
               vehicle r' = vehicle r ∧
               estimated_fare r' = estimated_fare r.

(** Every rider of [w] whose wallet is not below zero is still there in
    [w'], with a wallet that is not below zero. *)
Definition nonneg_wallets_kept : relation World := λ w w',
  ∀ i r, riders w !! i = Some r → nonneg (rider_wallet r) →
         ∃ r', riders w' !! i = Some r' ∧ nonneg (rider_wallet r').

(** No rider has left the store. *)
Definition riders_stay : relation World := λ w w',
  length (riders w) ≤ length (riders w').

End Methods.

(** * Properties *)

Section Properties.
Context {num : Type} `{PyNum num}.
#[local] Abbreviation World := (@World num).
#[local] Abbreviation M := (@M num).
#[local] Abbreviation Vehicle := (@Vehicle num).
#[local] Abbreviation Rider := (@Rider num).
#[local] Abbreviation Driver := (@Driver num).
#[local] Abbreviation Ride := (@Ride num).
#[local] Abbreviation RideRequest := (@RideRequest num).
#[local] Abbreviation Msg := (@Msg num).
#[local] Abbreviation Call := (@Call num).
#[local] Abbreviation location := (@location num).
#[local] Abbreviation fares_kept := (@fares_kept num).
#[local] Abbreviation wallets_nonneg := (@wallets_nonneg num _).
#[local] Abbreviation preserves := (@preserves num).
#[local] Abbreviation wf := (@wf num).
#[local] Abbreviation grown := (@grown num).

Lemma bind_returned {A B} (m : M A) (k : A → M B) (w w' : World) v :
  m w = (Returned v, w') → bind m k w = k v w'.
Proof. intros E. unfold bind. by rewrite E. Qed.

Lemma bind_raised {A B} (m : M A) (k : A → M B) (w w' : World) e :
  m w = (Raised e, w') → bind m k w = (Raised e, w').
Proof. intros E. unfold bind. by rewrite E. Qed.

Lemma bind_assoc {A B C} (m : M A) (f : A → M B) (g : B → M C) (w : World) :
  bind (bind m f) g w = bind m (λ x, bind (f x) g) w.
Proof. unfold bind. by destruct (m w) as [[v | e] w']. Qed.

Lemma load_Some {A} (store : World → list A) i x (w : World) :
  store w !! i = Some x → load store i w = (Returned x, w).
Proof. intros E. unfold load. by rewrite E. Qed.

Lemma modify_Some {A} (store : World → list A) put i f x (w : World) :
  store w !! i = Some x →
  modify store put i f w = (Returned tt, put (<[i := f x]> (store w)) w).
Proof. intros E. unfold modify. by rewrite E. Qed.

Lemma lookup_insert_same {A} (l : list A) i x y :
  l !! i = Some x → <[i := y]> l !! i = Some y.
Proof. intros E. apply list_lookup_insert_eq. by eapply lookup_lt_Some. Qed.

Lemma lookup_snoc {A} (l : list A) x : (l ++ [x]) !! length l = Some x.
Proof. by rewrite lookup_app_r, Nat.sub_diag by lia. Qed.

Lemma insert_snoc {A} (l : list A) x y : <[length l := y]> (l ++ [x]) = l ++ [y].
Proof. by rewrite insert_app_r_alt, Nat.sub_diag by lia. Qed.

Ltac store_simpl :=
  cbn [fst snd riders drivers vehicles rides stdout
       with_riders with_drivers with_vehicles with_rides with_stdout].

Ltac store_lookup :=
  cbn;
  first
    [ eassumption
    | apply lookup_snoc
    | eapply lookup_insert_same; store_lookup
    | rewrite list_lookup_insert_ne by congruence; store_lookup ].

Ltac exec :=
  repeat first
    [ rewrite bind_assoc
    | erewrite bind_returned;
        [| first [ apply load_Some; store_lookup
                 | apply modify_Some; store_lookup
                 | reflexivity ] ]
    | progress cbn ].

Lemma end_ride_unpaid (w : World) self r rd rating now :
  rides w !! self = Some r →
  riders w !! rider r = Some rd →
  geb (rider_wallet rd) (estimated_fare r) = false →
  end_ride self rating now w =
    (Returned tt,
     mkWorld (riders w) (drivers w) (vehicles w)
       (<[self := assign_end_time (Some now) r]> (rides w))
       (stdout w ++ [MsgNotEnoughBalance])).
Proof.
  intros Hr Hrd Hge. unfold end_ride, modify_ride, get_ride, get_rider.
  exec. rewrite Hge. reflexivity.
Qed.

Lemma end_ride_paid (w : World) self r rd d dv rating now :
  rides w !! self = Some r →
  riders w !! rider r = Some rd →
  driver r = Some d →
  drivers w !! d = Some dv →
  geb (rider_wallet rd) (estimated_fare r) = true →
  end_ride self rating now w =
    (Returned tt,
     mkWorld
       (<[rider r := assign_rider_wallet
                       (sub (rider_wallet rd) (estimated_fare r)) rd]> (riders w))
       (<[d := assign_driver_rating (driver_rating dv ++ [rating])
                 (assign_driver_wallet
                    (add (driver_wallet dv) (estimated_fare r)) dv)]> (drivers w))
       (vehicles w)
       (<[self := assign_end_time (Some now) r]> (rides w))
       (stdout w ++ [MsgRideEnded (estimated_fare r)])).
Proof.
  intros Hr Hrd Hd Hdv Hge.
  unfold end_ride, add_rating, modify_ride, modify_rider, modify_driver,
    get_ride, get_rider.
  exec. rewrite Hge. exec. rewrite Hd. exec.
  by rewrite list_insert_insert_eq.
Qed.

Lemma end_ride_no_driver (w : World) self r rd rating now :
  rides w !! self = Some r →
  riders w !! rider r = Some rd →
  driver r = None →
  geb (rider_wallet rd) (estimated_fare r) = true →
  end_ride self rating now w =
    (Raised AttributeError,
     mkWorld
       (<[rider r := assign_rider_wallet
                       (sub (rider_wallet rd) (estimated_fare r)) rd]> (riders w))
       (drivers w) (vehicles w)
       (<[self := assign_end_time (Some now) r]> (rides w))
       (stdout w)).
Proof.
  intros Hr Hrd Hd Hge.
  unfold end_ride, modify_ride, modify_rider, get_ride, get_rider.
  exec. rewrite Hge. exec. by rewrite Hd.
Qed.

Lemma start_ride_exec (w : World) self r now :
  rides w !! self = Some r →
  start_ride self now w =
    (Returned tt,
     mkWorld (riders w) (drivers w) (vehicles w)
       (<[self := assign_start_time (Some now) r]> (rides w)) (stdout w)).
Proof. intros Hr. unfold start_ride, modify_ride. by erewrite modify_Some. Qed.

Lemma load_cash_exec (w : World) self r amount :
  riders w !! self = Some r →
  load_cash self amount w =
    (Returned tt,
     if gtb amount zero then
       mkWorld (<[self := assign_rider_wallet (add (rider_wallet r) amount) r]>
                  (riders w))
         (drivers w) (vehicles w) (rides w) (stdout w)
     else w).
Proof.
  intros Hr. unfold load_cash, modify_rider.
  destruct (gtb amount zero); [by erewrite modify_Some | done].
Qed.

Lemma vehicle_of_Some (w : World) d v :
  vehicle_of w d = Some v →
  ∃ drv, drivers w !! d = Some drv ∧ vehicles w !! driver_vehicle drv = Some v.
Proof. unfold vehicle_of. destruct (drivers w !! d) as [drv|]; [eauto | done]. Qed.

(** One turn of the loop, for a driver the store holds. *)
Lemma find_driver_loop_cons (w : World) p d pool cd md :
  is_Some (vehicle_of w d) →
  find_driver_loop p (d :: pool) cd md w =
    if available w d then
      if ltb (distance_from w p d) md then
        find_driver_loop p pool (Some d) (distance_from w p d) w
      else find_driver_loop p pool cd md w
    else find_driver_loop p pool cd md w.
Proof.
  intros [v Hv]. destruct (vehicle_of_Some _ _ _ Hv) as (drv & Hd & Hveh).
  unfold available, distance_from. rewrite Hv, Hd. cbn.
  unfold get_driver, get_vehicle. exec.
  destruct (String.eqb (status v) "available"); [| done].
  by destruct (ltb _ md).
Qed.

Lemma find_driver_loop_none (w : World) p pool cd md :
  Forall (λ d, is_Some (vehicle_of w d)) pool →
  (∀ d, d ∈ pool → available w d = false) →
  find_driver_loop p pool cd md w = (Returned (cd, md), w).
Proof.
  induction 1 as [| d pool Hd _ IH]; intros Hnone; [done |].
  rewrite find_driver_loop_cons by done.
  rewrite (Hnone d) by left. apply IH. intros d' Hd'. apply Hnone. by right.
Qed.

Lemma find_driver_exec (w : World) pool req rd cd md drv v :
  riders w !! request_rider req = Some rd →
  find_driver_loop (rider_current_location rd) pool None inf w =
    (Returned (Some cd, md), w) →
  drivers w !! cd = Some drv →
  vehicles w !! driver_vehicle drv = Some v →
  let fare :=
    round2 (mul (math_dist (rider_current_location rd) (destination req))
                (rate v)) in
  find_driver pool req w =
    (Returned (Some (length (rides w))),
     mkWorld (riders w)
       (<[cd := assign_driver_current_ride (Some (length (rides w))) drv]>
          (drivers w))
       (vehicles w)
       (rides w ++
          [mkRide (rider_current_location rd) (destination req) (Some cd)
             (request_rider req) (driver_vehicle drv) None None fare])
       (stdout w ++ [MsgRideMatched (driver_name drv) fare])).
Proof.
  intros Hrd Hloop Hdrv Hv fare.
  unfold find_driver, get_rider. exec.
  rewrite (bind_returned _ _ _ _ _ Hloop). cbn.
  unfold get_driver. exec.
  unfold Ride_init, calculate_fare, accept_ride, set_driver, get_ride,
    get_vehicle, modify_ride, modify_driver.
  unfold new_ride, print. exec.
  by rewrite !insert_snoc.
Qed.

Lemma find_driver_none (w : World) pool req rd md :
  riders w !! request_rider req = Some rd →
  find_driver_loop (rider_current_location rd) pool None inf w =
    (Returned (None, md), w) →
  find_driver pool req w =
    (Returned None,
     mkWorld (riders w) (drivers w) (vehicles w) (rides w)
       (stdout w ++ [MsgNoAvailableDriver])).
Proof.
  intros Hrd Hloop. unfold find_driver, get_rider. exec.
  by rewrite (bind_returned _ _ _ _ _ Hloop).
Qed.

Section Ordering.
Context {laws : PyNumLaws num}.

Lemma ltb_asym a b : ltb a b = true → ltb b a = false.
Proof.
  intros Hab. destruct (ltb b a) eqn:Hba; [| done].
  by rewrite <- (ltb_irrefl a), (ltb_trans a b a).
Qed.

Lemma find_driver_loop_spec (w : World) p pool cd md :
  Forall (λ d, is_Some (vehicle_of w d)) pool →
  ∃ cd' md',
    find_driver_loop p pool cd md w = (Returned (cd', md'), w) ∧
    ((cd' = cd ∧ md' = md ∧
      ∀ d, d ∈ pool → available w d = true →
           ltb (distance_from w p d) md = false)
     ∨
     (∃ i d,
        cd' = Some d ∧ md' = distance_from w p d ∧
        pool !! i = Some d ∧ available w d = true ∧
        ltb md' md = true ∧
        (∀ d', d' ∈ pool → available w d' = true →
               ltb (distance_from w p d') md' = false) ∧
        (∀ j d', j < i → pool !! j = Some d' → available w d' = true →
                 ltb md' (distance_from w p d') = true))).
Proof.
  intros Hpool. revert cd md.
  induction Hpool as [| d pool Hd _ IH]; intros cd md.
  { exists cd, md. split; [done |]. left. repeat split. intros d Hd. inversion Hd. }
  rewrite find_driver_loop_cons by done.
  destruct (available w d) eqn:Hav.
  - destruct (ltb (distance_from w p d) md) eqn:Hlt.
    + destruct (IH (Some d) (distance_from w p d))
        as (cd' & md' & Hrun &
            [(-> & -> & Hmin)
            | (i & d2 & -> & -> & Hi & Hav2 & Hlt2 & Hmin & Hfirst)]).
      * exists (Some d), (distance_from w p d). split; [done |]. right.
        exists 0, d. repeat split; try done.
        -- intros d' [-> | Hd']%elem_of_cons Hav'; [apply ltb_irrefl | by apply Hmin].
        -- intros j d' Hj. lia.
      * exists (Some d2), (distance_from w p d2). split; [done |]. right.
        exists (S i), d2. repeat split; try done.
        -- by eapply ltb_trans.
        -- intros d' [-> | Hd']%elem_of_cons Hav'; [by apply ltb_asym | by apply Hmin].
        -- intros [| j] d' Hj Hl Hav'; cbn in Hl.
           ++ by inversion Hl; subst.
           ++ eapply Hfirst; [| done..]. lia.
    + destruct (IH cd md)
        as (cd' & md' & Hrun &
            [(-> & -> & Hmin)
            | (i & d2 & -> & -> & Hi & Hav2 & Hlt2 & Hmin & Hfirst)]).
      * exists cd, md. split; [done |]. left. repeat split.
        intros d' [-> | Hd']%elem_of_cons Hav'; [done | by apply Hmin].
      * exists (Some d2), (distance_from w p d2). split; [done |]. right.
        exists (S i), d2. repeat split; try done.
        -- intros d' [-> | Hd']%elem_of_cons Hav'; [| by apply Hmin].
           destruct (ltb (distance_from w p d) (distance_from w p d2)) eqn:E;
             [| done].
           by rewrite <- Hlt, (ltb_trans _ _ _ E Hlt2).
        -- intros [| j] d' Hj Hl Hav'; cbn in Hl.
           ++ inversion Hl; subst.
              destruct (ltb_cotrans _ (distance_from w p d') _ Hlt2) as [E | E];
                [done | congruence].
           ++ eapply Hfirst; [| done..]. lia.
  - destruct (IH cd md)
      as (cd' & md' & Hrun &
          [(-> & -> & Hmin)
          | (i & d2 & -> & -> & Hi & Hav2 & Hlt2 & Hmin & Hfirst)]).
    + exists cd, md. split; [done |]. left. repeat split.
      intros d' [-> | Hd']%elem_of_cons Hav'; [congruence | by apply Hmin].
    + exists (Some d2), (distance_from w p d2). split; [done |]. right.
      exists (S i), d2. repeat split; try done.
      * intros d' [-> | Hd']%elem_of_cons Hav'; [congruence | by apply Hmin].
      * intros [| j] d' Hj Hl Hav'; cbn in Hl.
        -- inversion Hl; subst. congruence.
        -- eapply Hfirst; [| done..]. lia.
Qed.
End Ordering.

(** ** Composing what calls leave alone *)

#[local] Instance keeps_preorder {B} (proj : World → B) : PreOrder (keeps proj).
Proof. split; [done |]. intros w1 w2 w3 H12 H23. unfold keeps in *. congruence. Qed.

Lemma stable_ret {A} (R : relation World) `{!Reflexive R} (v : A) : stable R (ret v).
Proof. by intros w. Qed.

Lemma stable_raise {A} (R : relation World) `{!Reflexive R} e :
  stable R (raise (A := A) e).
Proof. by intros w. Qed.

Lemma stable_load {A} (R : relation World) `{!Reflexive R}
    (store : World → list A) i :
  stable R (load store i).
Proof. intros w. unfold load. by destruct (store w !! i). Qed.

Lemma stable_bind {A B} (R : relation World) `{!PreOrder R}
    (m : M A) (k : A → M B) :
  stable R m → (∀ v, stable R (k v)) → stable R (bind m k).
Proof.
  intros Hm Hk w. unfold bind. specialize (Hm w).
  destruct (m w) as [[v | e] w']; cbn in *; [| done].
  by etrans; [| apply Hk].
Qed.

Lemma stable_modify {A} (R : relation World) `{!Reflexive R}
    (store : World → list A) put i f :
  (∀ w x, store w !! i = Some x → R w (put (<[i := f x]> (store w)) w)) →
  stable R (modify store put i f).
Proof.
  intros Hput w. unfold modify.
  destruct (store w !! i) eqn:E; cbn; [by apply Hput | done].
Qed.

Lemma stable_weaken {A} (R R' : relation World) (m : M A) :
  (∀ w w', R w w' → R' w w') → stable R m → stable R' m.
Proof. intros HR Hm w. apply HR, Hm. Qed.

Lemma stable_run (R : relation World) `{!PreOrder R} cs :
  (∀ c, stable R (call c)) → ∀ w, R w (run cs w).
Proof.
  intros Hc. induction cs as [| c cs IH]; intros w; cbn; [done |].
  etrans; [apply Hc | apply IH].
Qed.

(** Splits a method into its primitive steps. *)
Ltac stable_steps_with leaf :=
  repeat first
    [ leaf
    | apply stable_ret; apply _
    | apply stable_raise; apply _
    | apply stable_load; apply _
    | apply stable_bind; [apply _ | | intros ?]
    | match goal with
      | |- stable _ (if ?b then _ else _) => destruct b
      | |- stable _ (match ?x with _ => _ end) => destruct x
      end ].

Lemma stable_print (R : relation World) (m : Msg) :
  (∀ w out, R w (with_stdout out w)) → stable R (print m).
Proof. intros HR w. apply HR. Qed.

Ltac keeps_steps :=
  stable_steps_with
    ltac:(first
      [ apply stable_modify; [apply _ | intros; reflexivity]
      | intros ?; reflexivity ]).

Lemma find_driver_loop_keeps {B} (proj : World → B) p pool cd md :
  stable (keeps proj) (find_driver_loop p pool cd md).
Proof.
  revert cd md. induction pool as [| d pool IH]; intros cd md; cbn;
    unfold get_driver, get_vehicle; keeps_steps; apply IH.
Qed.

Lemma find_driver_loop_pure p pool cd md (w : World) :
  snd (find_driver_loop p pool cd md w) = w.
Proof. apply (find_driver_loop_keeps id). Qed.

Lemma find_driver_keeps_riders pool req : stable (keeps riders) (find_driver pool req).
Proof.
  unfold find_driver, Ride_init, calculate_fare, accept_ride, set_driver,
    get_rider, get_driver, get_ride, get_vehicle, modify_ride, modify_driver.
  keeps_steps. apply find_driver_loop_keeps.
Qed.

Lemma find_driver_keeps_vehicles pool req :
  stable (keeps vehicles) (find_driver pool req).
Proof.
  unfold find_driver, Ride_init, calculate_fare, accept_ride, set_driver,
    get_rider, get_driver, get_ride, get_vehicle, modify_ride, modify_driver.
  keeps_steps. apply find_driver_loop_keeps.
Qed.

(** No request, matched or not, touches a vehicle: only [start_drive]
    writes a status, and nothing calls it. *)
Lemma request_ride_keeps_vehicles self dest pool :
  stable (keeps vehicles) (request_ride self dest pool).
Proof.
  unfold request_ride, get_rider, modify_rider.
  stable_steps_with
    ltac:(first
      [ apply find_driver_keeps_vehicles
      | apply stable_modify; [apply _ | intros; reflexivity] ]).
Qed.

Lemma stable_load_bind {A B} (R : relation World) (store : World → list A) i
    (k : A → M B) :
  Reflexive R →
  (∀ w x, store w !! i = Some x → R w (snd (k x w))) →
  stable R (bind (load store i) k).
Proof.
  intros HR Hk w. unfold bind, load.
  destruct (store w !! i) eqn:E; [by apply Hk | done].
Qed.

(** *** Stored fares *)

#[local] Instance fares_kept_preorder : PreOrder fares_kept.
Proof.
  split; [by intros w i r; exists r |].
  intros w1 w2 w3 H12 H23 i r Hr.
  destruct (H12 i r Hr) as (r2 & Hr2 & E2).
  destruct (H23 i r2 Hr2) as (r3 & Hr3 & E3).
  exists r3. split; [done | congruence].
Qed.

Lemma fares_kept_frame {A} (m : M A) : stable (keeps rides) m → stable fares_kept m.
Proof.
  apply stable_weaken. intros w w' E i r Hr. exists r. unfold keeps in E.
  by rewrite E.
Qed.

Lemma fares_kept_modify_ride i f :
  (∀ r, estimated_fare (f r) = estimated_fare r) →
  stable fares_kept (modify_ride i f).
Proof.
  intros Hf. apply stable_modify; [apply _ |]. intros w x Hx j r Hr. cbn.
  destruct (decide (i = j)) as [<- | Hne].
  - exists (f x). split; [by eapply lookup_insert_same | congruence].
  - exists r. by rewrite list_lookup_insert_ne.
Qed.

Lemma fares_kept_snoc (w : World) l out r0 :
  fares_kept w (mkWorld (riders w) l (vehicles w) (rides w ++ [r0]) out).
Proof. intros i r Hr. exists r. cbn. split; [by apply lookup_app_l_Some | done]. Qed.

Lemma Ride_init_exec (w : World) s e rdr veh v :
  vehicles w !! veh = Some v →
  Ride_init s e rdr veh w =
    (Returned (length (rides w)),
     mkWorld (riders w) (drivers w) (vehicles w)
       (rides w ++
          [mkRide s e None rdr veh None None
             (round2 (mul (math_dist s e) (rate v)))])
       (stdout w)).
Proof.
  intros Hv.
  unfold Ride_init, calculate_fare, get_ride, get_vehicle, modify_ride, new_ride.
  exec. by rewrite insert_snoc.
Qed.

Lemma Ride_init_fares_kept s e rdr veh : stable fares_kept (Ride_init s e rdr veh).
Proof.
  intros w. destruct (vehicles w !! veh) as [v |] eqn:Hv.
  - rewrite (Ride_init_exec _ _ _ _ _ _ Hv). apply fares_kept_snoc.
  - unfold Ride_init, calculate_fare, get_ride, get_vehicle, new_ride, bind, load.
    cbn. rewrite lookup_snoc. cbn. rewrite Hv. cbn. apply fares_kept_snoc.
Qed.

Ltac fares_steps :=
  stable_steps_with
    ltac:(first
      [ apply Ride_init_fares_kept
      | apply fares_kept_modify_ride; intros; reflexivity
      | apply fares_kept_frame; first
          [ apply find_driver_loop_keeps
          | apply stable_modify; [apply _ | intros; reflexivity]
          | intros ?; reflexivity ] ]).

Lemma call_fares_kept c : stable fares_kept (call c).
Proof.
  destruct c; unfold call;
    unfold load_cash, request_ride, find_driver, start_ride, end_ride,
      update_location, start_drive, accept_ride, set_driver, add_rating,
      get_rider, get_driver, get_ride, get_vehicle,
      modify_rider, modify_driver, modify_vehicle.
  all: fares_steps.
Qed.

(** *** Rider balances *)

#[local] Instance preserves_preorder I : PreOrder (preserves I).
Proof.
  split; [intros w Hw; exact Hw |].
  intros w1 w2 w3 H12 H23 Hw. apply H23, H12, Hw.
Qed.

Lemma wallets_frame {A} (m : M A) :
  stable (keeps riders) m → stable (preserves wallets_nonneg) m.
Proof.
  apply stable_weaken. intros w w' E. unfold keeps, preserves, wallets_nonneg in *.
  by rewrite E.
Qed.

Lemma wallets_modify_rider i f :
  (∀ r, nonneg (rider_wallet r) → nonneg (rider_wallet (f r))) →
  stable (preserves wallets_nonneg) (modify_rider i f).
Proof.
  intros Hf. apply stable_modify; [apply _ |]. intros w x Hx Hw.
  unfold wallets_nonneg in *. cbn. apply Forall_insert; [done |].
  apply Hf. by eapply (Forall_lookup_1 _ _ _ _ Hw).
Qed.

Lemma end_ride_rest_keeps_riders (r : Ride) rating fare :
  stable (keeps riders)
    (let* d := match driver r with
               | Some d => ret d
               | None => raise AttributeError
               end in
     modify_driver d (λ x, assign_driver_wallet (add (driver_wallet x) fare) x);;;
     add_rating d rating;;;
     print (MsgRideEnded fare)).
Proof. unfold add_rating, modify_driver. keeps_steps. Qed.

Section Balances.
Context {laws : PyNumLaws num}.

Lemma end_ride_wallets self rating now :
  stable (preserves wallets_nonneg) (end_ride self rating now).
Proof.
  unfold end_ride, modify_ride, get_ride, get_rider.
  apply stable_bind; [apply _ | apply wallets_frame; keeps_steps | intros _].
  apply stable_bind; [apply _ | apply stable_load; apply _ | intros r].
  apply stable_load_bind; [apply _ |]. intros w rd Hrd.
  destruct (geb (rider_wallet rd) (estimated_fare r)) eqn:Hge; [| by intros Hw].
  unfold modify_rider. rewrite (bind_returned _ _ _ _ _ (modify_Some _ _ _ _ _ _ Hrd)).
  intros Hw. apply wallets_frame; [apply end_ride_rest_keeps_riders |].
  unfold wallets_nonneg in *. cbn. apply Forall_insert; [done |].
  by apply sub_geb_zero.
Qed.

Lemma call_wallets c : stable (preserves wallets_nonneg) (call c).
Proof.
  destruct c; unfold call.
  - unfold load_cash. destruct (gtb amount zero) eqn:Hgt; [| by intros w].
    apply wallets_modify_rider. intros r Hr. by apply add_geb_zero.
  - unfold request_ride, get_rider.
    stable_steps_with
      ltac:(first
        [ apply wallets_modify_rider; intros r Hr; exact Hr
        | apply wallets_frame, find_driver_keeps_riders ]).
  - apply wallets_frame. unfold start_ride, modify_ride. keeps_steps.
  - apply end_ride_wallets.
  - apply wallets_frame. unfold update_location, modify_driver. keeps_steps.
  - apply wallets_frame. unfold start_drive, modify_vehicle. keeps_steps.
Qed.

End Balances.

Lemma end_ride_sets_end_time (w : World) self r rating now :
  rides w !! self = Some r →
  rides (snd (end_ride self rating now w)) =
    <[self := assign_end_time (Some now) r]> (rides w).
Proof.
  intros Hr. unfold end_ride, modify_ride.
  rewrite (bind_returned _ _ _ _ _ (modify_Some _ _ _ _ _ _ Hr)).
  match goal with |- rides (snd (?m _)) = _ =>
    assert (stable (keeps rides) m) as Hm end.
  { unfold add_rating, get_ride, get_rider, modify_rider, modify_driver.
    keeps_steps. }
  unfold stable, keeps in Hm. by rewrite Hm.
Qed.

Lemma insert_current_ride_id (l : list Rider) i (rd : Rider) :
  l !! i = Some rd →
  <[i := assign_rider_current_ride (rider_current_ride rd) rd]> l = l.
Proof. intros Hl. apply list_insert_id. by destruct rd. Qed.

(** ** No dangling reference *)

Lemma wf_known (w : World) d :
  wf w → d < length (drivers w) → is_Some (vehicle_of w d).
Proof.
  intros [Hd _] Hlt. unfold vehicle_of.
  destruct (lookup_lt_is_Some_2 _ _ Hlt) as [drv Hdrv]. rewrite Hdrv.
  apply lookup_lt_is_Some_2. by eapply (list.Forall_lookup_1 _ _ _ _ Hd).
Qed.

Lemma find_driver_loop_returns (w : World) p pool cd md :
  Forall (λ d, is_Some (vehicle_of w d)) pool →
  ∃ cd' md',
    find_driver_loop p pool cd md w = (Returned (cd', md'), w) ∧
    (cd' = cd ∨ ∃ d, cd' = Some d ∧ d ∈ pool).
Proof.
  intros Hpool. revert cd md.
  induction Hpool as [| d pool Hd _ IH]; intros cd md.
  { exists cd, md. by split; [| left]. }
  rewrite find_driver_loop_cons by done.
  assert (∀ cd0 md0, ∃ cd' md',
            find_driver_loop p pool cd0 md0 w = (Returned (cd', md'), w) ∧
            (cd' = cd0 ∨ ∃ d', cd' = Some d' ∧ d' ∈ d :: pool)) as IH'.
  { intros cd0 md0. destruct (IH cd0 md0) as (cd' & md' & Hrun & [-> | (d' & -> & Hd')]).
    - exists cd0, md'. by split; [| left].
    - exists (Some d'), md'. split; [done |]. right. exists d'. split; [done |].
      by right. }
  destruct (available w d); [| apply IH'].
  destruct (ltb (distance_from w p d) md); [| apply IH'].
  destruct (IH' (Some d) (distance_from w p d)) as (cd' & md' & Hrun & [-> | Hin]).
  - exists (Some d), md'. split; [done |]. right. exists d. split; [done |]. by left.
  - exists cd', md'. split; [done |]. by right.
Qed.

Lemma wf_insert_rider (w : World) i x out :
  wf w →
  wf (mkWorld (<[i := x]> (riders w)) (drivers w) (vehicles w) (rides w) out).
Proof. intros [Hd Hr]. split; cbn; [done |]. by rewrite length_insert. Qed.

Lemma wf_insert_driver (w : World) i x rs out :
  length rs = length (riders w) →
  driver_vehicle x < length (vehicles w) →
  wf w →
  wf (mkWorld rs (<[i := x]> (drivers w)) (vehicles w) (rides w) out).
Proof.
  intros Hrs Hx [Hd Hr]. split; cbn.
  - destruct (decide (i < length (drivers w))) as [Hi | Hi].
    + by apply Forall_insert.
    + by rewrite list_insert_ge by lia.
  - by rewrite length_insert, Hrs.
Qed.

Lemma wf_insert_ride (w : World) i x rs ds out :
  length rs = length (riders w) →
  length ds = length (drivers w) →
  Forall (λ d, driver_vehicle d < length (vehicles w)) ds →
  rider x < length (riders w) ∧ vehicle x < length (vehicles w) ∧
    from_option (λ d, d < length (drivers w)) True (driver x) →
  wf w →
  wf (mkWorld rs ds (vehicles w) (<[i := x]> (rides w)) out).
Proof.
  intros Hrs Hds Hd' Hx [Hd Hr]. split; cbn; [done |]. rewrite Hrs, Hds.
  destruct (decide (i < length (rides w))) as [Hi | Hi].
  - by apply Forall_insert.
  - by rewrite list_insert_ge by lia.
Qed.

Lemma wf_ride (w : World) i r :
  wf w → rides w !! i = Some r →
  rider r < length (riders w) ∧ vehicle r < length (vehicles w) ∧
  from_option (λ d, d < length (drivers w)) True (driver r).
Proof. intros [_ Hr] Hi. by eapply (list.Forall_lookup_1 _ _ _ _ Hr). Qed.

Lemma wf_driver (w : World) i d :
  wf w → drivers w !! i = Some d → driver_vehicle d < length (vehicles w).
Proof. intros [Hd _] Hi. by eapply (list.Forall_lookup_1 _ _ _ _ Hd). Qed.

Lemma call_ok_grown (w w' : World) c : grown w w' → call_ok w c → call_ok w' c.
Proof.
  intros (Hrs & Hds & Hvs & Hrd). destruct c; cbn; rewrite ?Hrs, ?Hds, ?Hvs; try done.
  lia. lia.
Qed.

(** From a well-formed store, a call on objects of the store never meets a
    dangling reference, and leaves a well-formed store. *)
Lemma call_no_dangling (w : World) c :
  wf w → call_ok w c →
  fst (call c w) ≠ Raised DanglingRef ∧ wf (snd (call c w)) ∧ grown w (snd (call c w)).
Proof.
  intros Hwf Hok. destruct c as [self amount | self dest pool | self now
    | self rating now | self loc | self]; cbn in Hok; unfold call.
  - destruct (lookup_lt_is_Some_2 _ _ Hok) as [r Hr].
    rewrite (load_cash_exec _ _ _ _ Hr). store_simpl. split; [done |].
    destruct (gtb amount zero); [| done].
    split; [by apply wf_insert_rider |]. unfold grown. store_simpl.
    by rewrite length_insert.
  - destruct Hok as [Hself Hpool].
    destruct (lookup_lt_is_Some_2 _ _ Hself) as [rd Hrd].
    assert (Forall (λ d, is_Some (vehicle_of w d)) pool) as Hknown.
    { eapply Forall_impl; [exact Hpool |]. intros d Hd. by apply wf_known. }
    unfold request_ride, get_rider, modify_rider. exec.
    destruct (rider_current_ride rd) eqn:Hcur; [done |].
    destruct (find_driver_loop_returns w (rider_current_location rd) pool None inf Hknown)
      as (cd & md & Hloop & Hcd).
    destruct cd as [cd |].
    + destruct Hcd as [[=] | (d & [= <-] & Hd)].
      rewrite list.Forall_forall in Hknown.
      destruct (Hknown _ Hd) as [v Hv].
      destruct (vehicle_of_Some _ _ _ Hv) as (drv & Hdrv & Hveh).
      rewrite (bind_returned _ _ _ _ _
                 (find_driver_exec _ _ (mkRideRequest self dest) _ _ _ _ _
                    Hrd Hloop Hdrv Hveh)).
      erewrite modify_Some by (cbn; done). store_simpl. split; [done |].
      pose proof (lookup_lt_Some _ _ _ Hdrv) as Hlt.
      pose proof (wf_driver _ _ _ Hwf Hdrv) as Hvlt.
      split.
      * destruct Hwf as [Hds Hrs]. unfold wf. store_simpl. split.
        -- by apply Forall_insert.
        -- rewrite !length_insert. apply Forall_app. split; [done |].
           by constructor.
      * unfold grown. store_simpl. rewrite !length_insert, length_app. cbn. lia.
    + rewrite (bind_returned _ _ _ _ _
                 (find_driver_none _ _ (mkRideRequest self dest) _ _ Hrd Hloop)).
      erewrite modify_Some by (cbn; done). store_simpl. split; [done |].
      split; [by apply (wf_insert_rider (mkWorld _ _ _ _ (stdout w))) |].
      unfold grown. store_simpl. by rewrite length_insert.
  - destruct (lookup_lt_is_Some_2 _ _ Hok) as [r Hr].
    rewrite (start_ride_exec _ _ _ _ Hr). store_simpl. split; [done |].
    split; [| unfold grown; store_simpl; by rewrite length_insert].
    apply wf_insert_ride; [done | done | apply Hwf | | done].
    exact (wf_ride w self r Hwf Hr).
  - destruct (lookup_lt_is_Some_2 _ _ Hok) as [r Hr].
    destruct (wf_ride _ _ _ Hwf Hr) as (Hrlt & Hvlt & Hdlt).
    destruct (lookup_lt_is_Some_2 _ _ Hrlt) as [rd Hrd].
    destruct (geb (rider_wallet rd) (estimated_fare r)) eqn:Hge.
    + destruct (driver r) as [d |] eqn:Hd; cbn in Hdlt.
      * destruct (lookup_lt_is_Some_2 _ _ Hdlt) as [dv Hdv].
        rewrite (end_ride_paid _ _ _ _ _ _ _ _ Hr Hrd Hd Hdv Hge). store_simpl.
        split; [done |].
        split; [| unfold grown; store_simpl; by rewrite !length_insert].
        apply wf_insert_ride; [by rewrite length_insert.. | | | done].
        -- apply Forall_insert; [apply Hwf |].
           exact (wf_driver w d dv Hwf Hdv).
        -- cbn. by rewrite Hd.
      * rewrite (end_ride_no_driver _ _ _ _ _ _ Hr Hrd Hd Hge). store_simpl.
        split; [done |].
        split; [| unfold grown; store_simpl; by rewrite !length_insert].
        apply wf_insert_ride; [by rewrite length_insert | done | apply Hwf | | done].
        cbn. by rewrite Hd.
    + rewrite (end_ride_unpaid _ _ _ _ _ _ Hr Hrd Hge). store_simpl.
      split; [done |].
      split; [| unfold grown; store_simpl; by rewrite !length_insert].
      apply wf_insert_ride; [done | done | apply Hwf | | done].
      exact (wf_ride w self r Hwf Hr).
  - destruct (lookup_lt_is_Some_2 _ _ Hok) as [d Hd].
    unfold update_location, modify_driver. erewrite modify_Some by done. store_simpl.
    split; [done |].
    split; [| unfold grown; store_simpl; by rewrite length_insert].
    apply (wf_insert_driver w); [done | | done].
    exact (wf_driver w self d Hwf Hd).
  - destruct (lookup_lt_is_Some_2 _ _ Hok) as [v Hv].
    unfold start_drive, modify_vehicle. erewrite modify_Some by done. store_simpl.
    split; [done |].
    split; [| unfold grown; store_simpl; by rewrite length_insert].
    destruct Hwf as [Hds Hrs]. split; store_simpl; by rewrite length_insert.
Qed.

(** So no run of calls on objects of a well-formed store ever raises
    [DanglingRef]. *)
Lemma run_no_dangling cs (w : World) :
  wf w → Forall (call_ok w) cs →
  Forall (λ o, o ≠ Raised DanglingRef) (outcomes cs w) ∧ wf (run cs w).
Proof.
  revert w. induction cs as [| c cs IH]; intros w Hwf Hok; cbn; [by split |].
  apply Forall_cons in Hok as [Hc Hcs].
  destruct (call_no_dangling w c Hwf Hc) as (Hout & Hwf' & Hgrown).
  destruct (IH (snd (call c w)) Hwf') as [Houts Hwf''].
  { eapply Forall_impl; [exact Hcs |]. intros c'. by apply call_ok_grown. }
  split; [by constructor | done].
Qed.

(** ** The claims *)

(** C3, as the code has it.  When the rider's wallet does not cover the fare,
    [end_ride] returns normally after printing "Not enough balance!": no
    wallet, rating, driver or vehicle changes, and of the ride only the end
    timestamp, which is set before the wallet is looked at. *)
Theorem end_ride_insufficient_funds (w : World) self r rd rating now :
  rides w !! self = Some r →
  riders w !! rider r = Some rd →
  geb (rider_wallet rd) (estimated_fare r) = false →
  let res := end_ride self rating now w in
  fst res = Returned tt ∧
  riders (snd res) = riders w ∧
  drivers (snd res) = drivers w ∧
  vehicles (snd res) = vehicles w ∧
  rides (snd res) = <[self := assign_end_time (Some now) r]> (rides w) ∧
  stdout (snd res) = stdout w ++ [MsgNotEnoughBalance].
Proof.
  intros Hr Hrd Hge res. subst res.
  by rewrite (end_ride_unpaid _ _ _ _ _ _ Hr Hrd Hge).
Qed.

(** What a paying [end_ride] does not do.  It returns normally with the end
    timestamp recorded, so that the ride reads as Ended, but it writes to
    no vehicle, and the driver's current ride is the one they had: whatever
    the driver was bound to before the call, they are bound to after it. *)
Lemma end_ride_keeps_driver_bound (w : World) self r rd d dv rating now :
  rides w !! self = Some r →
  riders w !! rider r = Some rd →
  driver r = Some d →
  drivers w !! d = Some dv →
  geb (rider_wallet rd) (estimated_fare r) = true →
  let res := end_ride self rating now w in
  fst res = Returned tt ∧
  (∃ r', rides (snd res) !! self = Some r' ∧
         end_time r' = Some now ∧ ride_status r' = Ended) ∧
  vehicles (snd res) = vehicles w ∧
  (∃ dv', drivers (snd res) !! d = Some dv' ∧
          driver_current_ride dv' = driver_current_ride dv ∧
          driver_vehicle dv' = driver_vehicle dv) ∧
  available (snd res) d = available w d.
Proof.
  intros Hr Hrd Hd Hdv Hge res. subst res.
  rewrite (end_ride_paid _ _ _ _ _ _ _ _ Hr Hrd Hd Hdv Hge). cbn.
  split; [done |]. split; [| split; [done |]; split].
  - eexists. split; [by eapply lookup_insert_same | done].
  - eexists. split; [by eapply lookup_insert_same | done].
  - unfold available, vehicle_of. cbn.
    by rewrite (lookup_insert_same _ _ _ _ Hdv), Hdv.
Qed.

(** C6, as the code has it.  When the wallet covers the fare, [end_ride]
    settles whatever the rating is, inside 1..5 or not: it returns
    normally, the fare leaves the rider's wallet and reaches the driver's,
    and the rating is appended to the driver's ratings. *)
Theorem end_ride_accepts_any_rating (w : World) self r rd d dv (rating : Z) now :
  rides w !! self = Some r →
  riders w !! rider r = Some rd →
  driver r = Some d →
  drivers w !! d = Some dv →
  geb (rider_wallet rd) (estimated_fare r) = true →
  let res := end_ride self rating now w in
  fst res = Returned tt ∧
  (∃ rd', riders (snd res) !! rider r = Some rd' ∧
          rider_wallet rd' = sub (rider_wallet rd) (estimated_fare r)) ∧
  (∃ dv', drivers (snd res) !! d = Some dv' ∧
          driver_wallet dv' = add (driver_wallet dv) (estimated_fare r) ∧
          driver_rating dv' = driver_rating dv ++ [rating]).
Proof.
  intros Hr Hrd Hd Hdv Hge res. subst res.
  rewrite (end_ride_paid _ _ _ _ _ _ _ _ Hr Hrd Hd Hdv Hge). cbn.
  split; [done |].
  split; eexists; (split; [by eapply lookup_insert_same | done]).
Qed.

(** C7, as the code has it.  Neither method looks at the state of the ride.
    On a ride in any state [start_ride] returns normally having set the
    start timestamp and nothing else; [end_ride] sets the end timestamp and
    goes on to settle, returning normally when the ride has a driver. *)
Theorem start_and_end_unguarded (w : World) self r now :
  rides w !! self = Some r →
  start_ride self now w =
    (Returned tt,
     mkWorld (riders w) (drivers w) (vehicles w)
       (<[self := assign_start_time (Some now) r]> (rides w)) (stdout w)) ∧
  ∀ rating,
    rides (snd (end_ride self rating now w)) =
      <[self := assign_end_time (Some now) r]> (rides w) ∧
    ∀ rd d dv,
      riders w !! rider r = Some rd → driver r = Some d →
      drivers w !! d = Some dv →
      fst (end_ride self rating now w) = Returned tt.
Proof.
  intros Hr. split; [by apply start_ride_exec |]. intros rating.
  split; [by apply end_ride_sets_end_time |]. intros rd d dv Hrd Hd Hdv.
  destruct (geb (rider_wallet rd) (estimated_fare r)) eqn:Hge.
  - by rewrite (end_ride_paid _ _ _ _ _ _ _ _ Hr Hrd Hd Hdv Hge).
  - by rewrite (end_ride_unpaid _ _ _ _ _ _ Hr Hrd Hge).
Qed.

(** C9, as the code has it.  When no driver of the pool has an available
    vehicle, [find_driver] prints "No available driver found." and returns
    [None]: no ride is created and no rider, driver, vehicle or ride
    changes.  [request_ride] of a rider without a current ride then leaves
    the rider as they were. *)
Theorem find_driver_none_available (w : World) pool req rd :
  riders w !! request_rider req = Some rd →
  Forall (λ d, is_Some (vehicle_of w d)) pool →
  Forall (λ d, available w d = false) pool →
  find_driver pool req w =
    (Returned None,
     mkWorld (riders w) (drivers w) (vehicles w) (rides w)
       (stdout w ++ [MsgNoAvailableDriver])) ∧
  (rider_current_ride rd = None →
   request_ride (request_rider req) (destination req) pool w =
     (Returned tt,
      mkWorld (riders w) (drivers w) (vehicles w) (rides w)
        (stdout w ++ [MsgNoAvailableDriver]))).
Proof.
  intros Hrd Hpool Hnone.
  assert (find_driver pool req w =
    (Returned None,
     mkWorld (riders w) (drivers w) (vehicles w) (rides w)
       (stdout w ++ [MsgNoAvailableDriver]))) as Hfind.
  { eapply find_driver_none; [done |]. apply find_driver_loop_none; [done |].
    intros d Hd. by eapply list.Forall_forall in Hnone. }
  split; [done |]. intros Hcur.
  unfold request_ride, get_rider, modify_rider. exec. rewrite Hcur.
  destruct req as [self dest]. cbn in *.
  rewrite (bind_returned _ _ _ _ _ Hfind). erewrite modify_Some by (cbn; done).
  cbn. rewrite <- Hcur. by rewrite insert_current_ride_id.
Qed.

(** C10. [load_cash] adds a strictly positive amount to the rider's wallet
    and changes nothing else; on any other amount it changes nothing at
    all.  It returns normally either way. *)
Theorem load_cash_adds_positive (w : World) self r amount :
  riders w !! self = Some r →
  (gtb amount zero = true →
   load_cash self amount w =
     (Returned tt,
      mkWorld
        (<[self := mkRider (rider_name r) (rider_email r) (rider_id r)
                     (rider_nid r) (add (rider_wallet r) amount)
                     (rider_current_location r) (rider_current_ride r)]>
           (riders w))
        (drivers w) (vehicles w) (rides w) (stdout w))) ∧
  (gtb amount zero = false → load_cash self amount w = (Returned tt, w)).
Proof.
  intros Hr. rewrite (load_cash_exec _ _ _ _ Hr).
  by split; intros ->.
Qed.

Section OrderedNumbers.
Context {laws : PyNumLaws num}.

(** C1. For every pool and request, [find_driver] returns a ride driven by
    an available driver of the pool than whom no available driver of the
    pool is nearer to the rider, and every available driver earlier in the
    pool is strictly farther: ties go to the first in iteration order.
    The pool is taken to hold an available driver, every distance being
    below [inf]. *)
Theorem find_driver_nearest_first (w : World) pool req rd :
  riders w !! request_rider req = Some rd →
  Forall (λ d, is_Some (vehicle_of w d)) pool →
  Forall (λ d, available w d = true →
               ltb (distance_from w (rider_current_location rd) d) inf = true)
         pool →
  Exists (λ d, available w d = true) pool →
  let dist := distance_from w (rider_current_location rd) in
  let res := find_driver pool req w in
  ∃ i d ride r,
    fst res = Returned (Some ride) ∧
    rides (snd res) !! ride = Some r ∧ driver r = Some d ∧
    pool !! i = Some d ∧ available w d = true ∧
    (∀ d', d' ∈ pool → available w d' = true → ltb (dist d') (dist d) = false) ∧
    (∀ j d', j < i → pool !! j = Some d' → available w d' = true →
             ltb (dist d) (dist d') = true).
Proof.
  intros Hrd Hpool Hfin Hex dist res. subst res.
  destruct (find_driver_loop_spec w (rider_current_location rd) pool None inf Hpool)
    as (cd & md & Hloop &
        [(-> & -> & Hmin) | (i & d & -> & -> & Hi & Hav & _ & Hmin & Hfirst)]).
  { apply list.Exists_exists in Hex as (d & Hd & Hav).
    rewrite list.Forall_forall in Hfin.
    specialize (Hfin d Hd Hav). specialize (Hmin d Hd Hav). congruence. }
  destruct (list.Forall_lookup_1 _ _ _ _ Hpool Hi) as [v Hv].
  destruct (vehicle_of_Some _ _ _ Hv) as (drv & Hdrv & Hveh).
  rewrite (find_driver_exec _ _ _ _ _ _ _ _ Hrd Hloop Hdrv Hveh). cbn.
  exists i, d, (length (rides w)). eexists.
  split; [done |]. split; [apply lookup_snoc |]. by repeat split.
Qed.

End OrderedNumbers.

(** * Further properties of the code *)

#[local] Abbreviation current_rides_kept := (@current_rides_kept num).
#[local] Abbreviation ratings_extended := (@ratings_extended num).
#[local] Abbreviation unavailable_kept := (@unavailable_kept num).
#[local] Abbreviation accounts := (@accounts num).

(** ** A rider's current ride is assigned once *)

#[local] Instance current_rides_kept_preorder : PreOrder current_rides_kept.
Proof.
  split; [by intros w i r k Hr Hk; exists r |].
  intros w1 w2 w3 H12 H23 i r k Hr Hk.
  destruct (H12 i r k Hr Hk) as (r2 & Hr2 & Hk2). by apply (H23 i r2 k).
Qed.

Lemma current_rides_kept_frame {A} (m : M A) :
  stable (keeps riders) m → stable current_rides_kept m.
Proof.
  apply stable_weaken. intros w w' E i r k Hr Hk. exists r.
  unfold keeps in E. by rewrite E.
Qed.

Lemma current_rides_kept_modify_rider i f :
  (∀ r, rider_current_ride (f r) = rider_current_ride r) →
  stable current_rides_kept (modify_rider i f).
Proof.
  intros Hf. apply stable_modify; [apply _ |]. intros w x Hx j r k Hr Hk. cbn.
  destruct (decide (i = j)) as [<- | Hne].
  - exists (f x). split; [by eapply lookup_insert_same | congruence].
  - exists r. by rewrite list_lookup_insert_ne.
Qed.

Lemma request_ride_current_rides_kept self dest pool :
  stable current_rides_kept (request_ride self dest pool).
Proof.
  unfold request_ride, get_rider. apply stable_load_bind; [apply _ |].
  intros w r Hr. destruct (rider_current_ride r) eqn:Hcur; [done |].
  pose proof (find_driver_keeps_riders pool (mkRideRequest self dest) w) as Hk.
  unfold bind. destruct (find_driver pool (mkRideRequest self dest) w)
    as [[ride | e] w1]; cbn in Hk |- *.
  - unfold keeps in Hk. unfold modify_rider, modify. rewrite Hk, Hr.
    store_simpl. intros j r' k Hr' Hk'. store_simpl.
    destruct (decide (self = j)) as [<- | Hne]; [congruence |].
    exists r'. by rewrite list_lookup_insert_ne.
  - intros j r' k Hr' Hk'. exists r'. unfold keeps in Hk. by rewrite Hk.
Qed.

Lemma call_current_rides_kept c : stable current_rides_kept (call c).
Proof.
  destruct c; unfold call.
  - unfold load_cash. destruct (gtb amount zero); [| apply stable_ret, _].
    by apply current_rides_kept_modify_rider.
  - apply request_ride_current_rides_kept.
  - apply current_rides_kept_frame. unfold start_ride, modify_ride. keeps_steps.
  - unfold end_ride, add_rating, get_ride, get_rider, modify_ride, modify_driver.
    stable_steps_with
      ltac:(first
        [ apply current_rides_kept_modify_rider; intros; reflexivity
        | apply current_rides_kept_frame; first
            [ apply stable_modify; [apply _ | intros; reflexivity]
            | intros ?; reflexivity ] ]).
  - apply current_rides_kept_frame. unfold update_location, modify_driver.
    keeps_steps.
  - apply current_rides_kept_frame. unfold start_drive, modify_vehicle.
    keeps_steps.
Qed.

(** X1. Once a rider has a current ride, no sequence of calls clears or
    replaces it, and every later [request_ride] of that rider returns at
    once, leaving the store as it found it: a rider is matched at most
    once. *)
Theorem rider_matched_at_most_once (w : World) self r k :
  riders w !! self = Some r →
  rider_current_ride r = Some k →
  ∀ cs,
    (∃ r', riders (run cs w) !! self = Some r' ∧ rider_current_ride r' = Some k) ∧
    ∀ dest pool,
      request_ride self dest pool (run cs w) = (Returned tt, run cs w).
Proof.
  intros Hr Hk cs.
  destruct (stable_run current_rides_kept cs call_current_rides_kept w self r k Hr Hk)
    as (r' & Hr' & Hk').
  split; [by exists r' |]. intros dest pool.
  unfold request_ride, get_rider. exec. by rewrite Hk'.
Qed.

(** ** Ratings are only ever appended *)

#[local] Instance ratings_extended_preorder : PreOrder ratings_extended.
Proof.
  split; [by intros w d dv Hd; exists dv |].
  intros w1 w2 w3 H12 H23 d dv Hd.
  destruct (H12 d dv Hd) as (dv2 & Hd2 & Hv2 & Hp2).
  destruct (H23 d dv2 Hd2) as (dv3 & Hd3 & Hv3 & Hp3).
  exists dv3. split; [done |]. split; [congruence | by etrans].
Qed.

Lemma ratings_extended_frame {A} (m : M A) :
  stable (keeps drivers) m → stable ratings_extended m.
Proof.
  apply stable_weaken. intros w w' E d dv Hd. exists dv.
  unfold keeps in E. by rewrite E.
Qed.

Lemma ratings_extended_modify_driver i f :
  (∀ x, driver_vehicle (f x) = driver_vehicle x ∧
        driver_rating x `prefix_of` driver_rating (f x)) →
  stable ratings_extended (modify_driver i f).
Proof.
  intros Hf. apply stable_modify; [apply _ |]. intros w x Hx j dv Hdv. cbn.
  destruct (decide (i = j)) as [<- | Hne].
  - exists (f x). split; [by eapply lookup_insert_same |].
    assert (dv = x) as -> by congruence. apply Hf.
  - exists dv. by rewrite list_lookup_insert_ne.
Qed.

Ltac ratings_steps :=
  stable_steps_with
    ltac:(first
      [ apply ratings_extended_modify_driver; intros;
          split; [reflexivity | first [reflexivity | by apply prefix_app_r]]
      | apply ratings_extended_frame; first
          [ apply find_driver_loop_keeps
          | apply stable_modify; [apply _ | intros; reflexivity]
          | intros ?; reflexivity ] ]).

Lemma call_ratings_extended c : stable ratings_extended (call c).
Proof.
  destruct c; unfold call;
    unfold load_cash, request_ride, find_driver, Ride_init, calculate_fare,
      start_ride, end_ride, update_location, start_drive, accept_ride,
      set_driver, add_rating, get_rider, get_driver, get_ride, get_vehicle,
      modify_rider, modify_ride, modify_vehicle.
  all: ratings_steps.
Qed.


(** ** A vehicle driven off stays off *)

#[local] Instance unavailable_kept_preorder : PreOrder unavailable_kept.
Proof.
  split; [by intros w d Hd |].
  intros w1 w2 w3 H12 H23 d Hd. by apply H23, H12.
Qed.

Lemma unavailable_kept_frame {A} (m : M A) :
  stable (keeps (λ w, (drivers w, vehicles w))) m → stable unavailable_kept m.
Proof.
  apply stable_weaken. intros w w' [= Ed Ev] d Hd.
  unfold available, vehicle_of in *. by rewrite Ed, Ev.
Qed.

Lemma unavailable_kept_modify_driver i f :
  (∀ x, driver_vehicle (f x) = driver_vehicle x) →
  stable unavailable_kept (modify_driver i f).
Proof.
  intros Hf. apply stable_modify; [apply _ |]. intros w x Hx d Hd.
  unfold available, vehicle_of in *. cbn.
  destruct (decide (i = d)) as [<- | Hne].
  - rewrite (lookup_insert_same _ _ _ _ Hx), Hf. by rewrite Hx in Hd.
  - by rewrite list_lookup_insert_ne.
Qed.

Lemma unavailable_kept_start_drive v : stable unavailable_kept (start_drive v).
Proof.
  unfold start_drive, modify_vehicle. apply stable_modify; [apply _ |].
  intros w x Hx d Hd. unfold available, vehicle_of in *. cbn.
  destruct (drivers w !! d) as [drv |]; [| done].
  destruct (decide (v = driver_vehicle drv)) as [-> | Hne].
  - by rewrite (lookup_insert_same _ _ _ _ Hx).
  - by rewrite list_lookup_insert_ne.
Qed.

Ltac unavailable_steps :=
  stable_steps_with
    ltac:(first
      [ apply unavailable_kept_modify_driver; intros; reflexivity
      | apply unavailable_kept_frame; first
          [ apply find_driver_loop_keeps
          | apply stable_modify; [apply _ | intros; reflexivity]
          | intros ?; reflexivity ] ]).

Lemma call_unavailable_kept c : stable unavailable_kept (call c).
Proof.
  destruct c; unfold call; [| | | | | apply unavailable_kept_start_drive];
    unfold load_cash, request_ride, find_driver, Ride_init, calculate_fare,
      start_ride, end_ride, update_location, accept_ride,
      set_driver, add_rating, get_rider, get_driver, get_ride, get_vehicle,
      modify_rider, modify_ride.
  all: unavailable_steps.
Qed.

(** X3. Nothing ever makes a vehicle available again.  A driver the matcher
    passes over (a vehicle that is not 'available', or no such driver) is
    passed over after any sequence of calls; in particular the driver of a
    vehicle on which [start_drive] was called is never matched again. *)
Theorem unavailable_forever (w : World) d cs :
  available w d = false → available (run cs w) d = false.
Proof. apply (stable_run unavailable_kept cs call_unavailable_kept). Qed.

(** ** What a match is made of *)

Lemma find_driver_loop_inv (w w' : World) p pool cd md cd' md' :
  find_driver_loop p pool cd md w = (Returned (cd', md'), w') →
  cd' = cd ∨ ∃ d, cd' = Some d ∧ d ∈ pool ∧ available w d = true.
Proof.
  revert cd md. induction pool as [| d pool IH]; intros cd md Hrun.
  { cbn in Hrun. unfold ret in Hrun. left. congruence. }
  assert (∀ cd0 md0,
            find_driver_loop p pool cd0 md0 w = (Returned (cd', md'), w') →
            cd' = cd0 ∨ ∃ d', cd' = Some d' ∧ d' ∈ d :: pool ∧ available w d' = true)
    as IH'.
  { intros cd0 md0 Hrun0. destruct (IH _ _ Hrun0) as [-> | (d' & -> & Hd' & Hav)].
    - by left.
    - right. exists d'. split; [done |]. split; [by right | done]. }
  destruct (vehicle_of w d) as [v |] eqn:Hv.
  - rewrite find_driver_loop_cons in Hrun by eauto.
    destruct (available w d) eqn:Hav; [| by apply IH' in Hrun].
    destruct (ltb (distance_from w p d) md); [| by apply IH' in Hrun].
    apply IH' in Hrun as [-> | Hin]; [| by right].
    right. exists d. split; [done |]. split; [by left | done].
  - exfalso. cbn in Hrun. unfold bind, get_driver, get_vehicle, load in Hrun.
    unfold vehicle_of in Hv. destruct (drivers w !! d); [| done].
    by rewrite Hv in Hrun.
Qed.

(** X4. Whenever [find_driver] returns a ride, it is a new ride, the last of
    the store, from the rider's location to the destination; its driver is
    a driver of the pool whose vehicle read 'available', its fare is worked
    out with that vehicle's rate, and it has neither start nor end time.
    The driver's current ride is set to it, one line is printed, and no
    rider, vehicle or other ride or driver changes. *)
Theorem find_driver_match_shape (w w' : World) pool req ride :
  find_driver pool req w = (Returned (Some ride), w') →
  ∃ rd d drv v,
    riders w !! request_rider req = Some rd ∧
    d ∈ pool ∧
    drivers w !! d = Some drv ∧
    vehicles w !! driver_vehicle drv = Some v ∧
    status v = "available"%string ∧
    ride = length (rides w) ∧
    let fare :=
      round2 (mul (math_dist (rider_current_location rd) (destination req))
                  (rate v)) in
    w' = mkWorld (riders w)
           (<[d := assign_driver_current_ride (Some ride) drv]> (drivers w))
           (vehicles w)
           (rides w ++
              [mkRide (rider_current_location rd) (destination req) (Some d)
                 (request_rider req) (driver_vehicle drv) None None fare])
           (stdout w ++ [MsgRideMatched (driver_name drv) fare]).
Proof.
  intros Hfind.
  destruct (riders w !! request_rider req) as [rd |] eqn:Hrd; last first.
  { unfold find_driver, get_rider, bind, load in Hfind. by rewrite Hrd in Hfind. }
  destruct (find_driver_loop (rider_current_location rd) pool None inf w)
    as [[[cd md] | e] w1] eqn:Hloop; last first.
  { unfold find_driver, get_rider in Hfind.
    rewrite (bind_returned _ _ _ _ _ (load_Some _ _ _ _ Hrd)) in Hfind.
    by rewrite (bind_raised _ _ _ _ _ Hloop) in Hfind. }
  pose proof (find_driver_loop_pure (rider_current_location rd) pool None inf w)
    as Hpure. rewrite Hloop in Hpure. cbn in Hpure. subst w1.
  destruct cd as [d |]; last first.
  { by rewrite (find_driver_none _ _ _ _ _ Hrd Hloop) in Hfind. }
  destruct (find_driver_loop_inv _ _ _ _ _ _ _ _ Hloop)
    as [[=] | (d' & [= <-] & Hd & Hav)].
  unfold available in Hav. destruct (vehicle_of w d) as [v |] eqn:Hv; [| done].
  destruct (vehicle_of_Some _ _ _ Hv) as (drv & Hdrv & Hveh).
  rewrite (find_driver_exec _ _ _ _ _ _ _ _ Hrd Hloop Hdrv Hveh) in Hfind.
  injection Hfind as <- <-.
  exists rd, d, drv, v. repeat split; try done. by apply String.eqb_eq.
Qed.

(** ** Ending a ride that has no driver *)

(** X5. A ride whose driver was never set can still be ended.  If the
    rider's wallet covers the fare, the fare is taken from it and only then
    does the call raise AttributeError: no driver is credited, nothing is
    printed, and the end time stays set.  If the wallet does not cover the
    fare the call returns normally and takes nothing. *)
Theorem end_ride_driverless (w : World) self r rd rating now :
  rides w !! self = Some r →
  riders w !! rider r = Some rd →
  driver r = None →
  let res := end_ride self rating now w in
  let fare := estimated_fare r in
  (geb (rider_wallet rd) fare = true →
     fst res = Raised AttributeError ∧
     riders (snd res) =
       <[rider r := assign_rider_wallet (sub (rider_wallet rd) fare) rd]> (riders w) ∧
     drivers (snd res) = drivers w ∧
     rides (snd res) = <[self := assign_end_time (Some now) r]> (rides w) ∧
     stdout (snd res) = stdout w) ∧
  (geb (rider_wallet rd) fare = false →
     fst res = Returned tt ∧ riders (snd res) = riders w ∧
     drivers (snd res) = drivers w).
Proof.
  intros Hr Hrd Hd res fare. subst res fare. split; intros Hge.
  - by rewrite (end_ride_no_driver _ _ _ _ _ _ Hr Hrd Hd Hge).
  - by rewrite (end_ride_unpaid _ _ _ _ _ _ Hr Hrd Hge).
Qed.

(** ** Ending a ride twice *)

(** X6. Ending a ride does not close it: a second [end_ride] on the same
    ride, if the wallet still covers the fare, takes the fare again, pays
    the driver again, appends a second rating and overwrites the end
    time. *)
Theorem end_ride_twice_charges_twice (w : World) self r rd d dv
    rating1 now1 rating2 now2 :
  rides w !! self = Some r →
  riders w !! rider r = Some rd →
  driver r = Some d →
  drivers w !! d = Some dv →
  let fare := estimated_fare r in
  geb (rider_wallet rd) fare = true →
  geb (sub (rider_wallet rd) fare) fare = true →
  end_ride self rating2 now2 (snd (end_ride self rating1 now1 w)) =
    (Returned tt,
     mkWorld
       (<[rider r := assign_rider_wallet
                       (sub (sub (rider_wallet rd) fare) fare) rd]> (riders w))
       (<[d := assign_driver_rating (driver_rating dv ++ [rating1; rating2])
                 (assign_driver_wallet
                    (add (add (driver_wallet dv) fare) fare) dv)]> (drivers w))
       (vehicles w)
       (<[self := assign_end_time (Some now2) r]> (rides w))
       (stdout w ++ [MsgRideEnded fare; MsgRideEnded fare])).
Proof.
  intros Hr Hrd Hd Hdv fare Hge1 Hge2. subst fare.
  rewrite (end_ride_paid _ _ _ _ _ _ _ _ Hr Hrd Hd Hdv Hge1). store_simpl.
  rewrite (end_ride_paid _ self (assign_end_time (Some now1) r)
             (assign_rider_wallet (sub (rider_wallet rd) (estimated_fare r)) rd)
             d
             (assign_driver_rating (driver_rating dv ++ [rating1])
                (assign_driver_wallet
                   (add (driver_wallet dv) (estimated_fare r)) dv))
             rating2 now2).
  - cbn. rewrite !list_insert_insert_eq, <- !(assoc_L (++)). reflexivity.
  - by eapply lookup_insert_same.
  - cbn. by eapply lookup_insert_same.
  - done.
  - cbn. by eapply lookup_insert_same.
  - done.
Qed.

(** ** Who is paid, and when *)

Lemma fmap_insert_kept {A B} (g : A → B) (l : list A) i x y :
  l !! i = Some x → g y = g x → g <$> <[i := y]> l = g <$> l.
Proof.
  intros Hl Hg. rewrite list_fmap_insert. apply list_insert_id.
  by rewrite list_lookup_fmap, Hl, Hg.
Qed.

Lemma accounts_frame {A} (m : M A) :
  stable (keeps (λ w, (riders w, drivers w))) m → stable (keeps accounts) m.
Proof.
  apply stable_weaken. intros w w' [= Er Ed]. unfold keeps, accounts.
  by rewrite Er, Ed.
Qed.

Lemma accounts_modify_rider i f :
  (∀ x, rider_wallet (f x) = rider_wallet x) →
  stable (keeps accounts) (modify_rider i f).
Proof.
  intros Hf. apply stable_modify; [apply _ |]. intros w x Hx.
  unfold keeps, accounts. cbn. by rewrite (fmap_insert_kept _ _ _ _ _ Hx).
Qed.

Lemma accounts_modify_driver i f :
  (∀ x, driver_wallet (f x) = driver_wallet x ∧
        driver_rating (f x) = driver_rating x) →
  stable (keeps accounts) (modify_driver i f).
Proof.
  intros Hf. apply stable_modify; [apply _ |]. intros w x Hx.
  unfold keeps, accounts. cbn.
  rewrite !(fmap_insert_kept _ _ _ _ _ Hx); [done | apply Hf..].
Qed.

Ltac accounts_steps :=
  stable_steps_with
    ltac:(first
      [ apply accounts_modify_rider; intros; reflexivity
      | apply accounts_modify_driver; intros; split; reflexivity
      | apply accounts_frame; first
          [ apply find_driver_loop_keeps
          | apply stable_modify; [apply _ | intros; reflexivity]
          | intros ?; reflexivity ] ]).

Lemma free_call_keeps_accounts c :
  is_free c = true → stable (keeps accounts) (call c).
Proof.
  destruct c; intros Hfree; try discriminate Hfree; unfold call;
    unfold request_ride, find_driver, Ride_init, calculate_fare, start_ride,
      update_location, start_drive, accept_ride, set_driver,
      get_rider, get_driver, get_ride, get_vehicle, modify_ride, modify_vehicle.
  all: accounts_steps.
Qed.

(** X7. Money and ratings move only in [load_cash] and [end_ride].  Any
    sequence of the other calls (requests, matched or not, starts, location
    updates, drive-offs) leaves every rider's wallet, every driver's wallet
    and every driver's ratings as they were. *)
Theorem only_load_and_end_touch_accounts (w : World) cs :
  forallb is_free cs = true → accounts (run cs w) = accounts w.
Proof.
  revert w. induction cs as [| c cs IH]; intros w Hfree; [done |].
  cbn in Hfree. apply andb_prop in Hfree as [Hc Hcs]. cbn.
  rewrite (IH _ Hcs). apply (free_call_keeps_accounts c Hc w).
Qed.

(** X8. A settlement touches two accounts only.  When [end_ride] pays, every
    rider other than the ride's rider and every driver other than the
    ride's driver is left as they were, and so is every vehicle; and if
    subtracting and adding are exact, what the two wallets hold together is
    what they held before. *)
Theorem end_ride_touches_two_accounts (w : World) self r rd d dv rating now :
  rides w !! self = Some r →
  riders w !! rider r = Some rd →
  driver r = Some d →
  drivers w !! d = Some dv →
  geb (rider_wallet rd) (estimated_fare r) = true →
  let w' := snd (end_ride self rating now w) in
  (∀ j, j ≠ rider r → riders w' !! j = riders w !! j) ∧
  (∀ j, j ≠ d → drivers w' !! j = drivers w !! j) ∧
  vehicles w' = vehicles w ∧
  ((∀ a b f, add (sub a f) (add b f) = add a b) →
   ∃ rd' dv',
     riders w' !! rider r = Some rd' ∧ drivers w' !! d = Some dv' ∧
     add (rider_wallet rd') (driver_wallet dv') =
       add (rider_wallet rd) (driver_wallet dv)).
Proof.
  intros Hr Hrd Hd Hdv Hge w'. subst w'.
  rewrite (end_ride_paid _ _ _ _ _ _ _ _ Hr Hrd Hd Hdv Hge). store_simpl.
  split; [intros j Hj; by apply list_lookup_insert_ne |].
  split; [intros j Hj; by apply list_lookup_insert_ne |].
  split; [done |]. intros Hexact. do 2 eexists.
  split; [by eapply lookup_insert_same |].
  split; [by eapply lookup_insert_same |]. cbn. apply Hexact.
Qed.

(** ** A ride is a record *)

#[local] Abbreviation ride_records_kept := (@ride_records_kept num).

#[local] Instance ride_records_kept_preorder : PreOrder ride_records_kept.
Proof.
  split; [by intros w i r Hr; exists r |].
  intros w1 w2 w3 H12 H23 i r Hr.
  destruct (H12 i r Hr) as (r2 & Hr2 & E2).
  destruct (H23 i r2 Hr2) as (r3 & Hr3 & E3).
  exists r3. split; [done |]. destruct_and!. repeat split; congruence.
Qed.

Lemma ride_records_kept_app (w w' : World) extra :
  rides w' = rides w ++ extra → ride_records_kept w w'.
Proof.
  intros E i r Hr. exists r. rewrite E. split; [by apply lookup_app_l_Some | done].
Qed.

Lemma ride_records_kept_frame {A} (m : M A) :
  stable (keeps rides) m → stable ride_records_kept m.
Proof.
  apply stable_weaken. intros w w' E. apply (ride_records_kept_app _ _ []).
  unfold keeps in E. by rewrite E, app_nil_r.
Qed.

Lemma ride_records_kept_modify_ride i f :
  (∀ r, start_location (f r) = start_location r ∧
        end_location (f r) = end_location r ∧
        rider (f r) = rider r ∧ vehicle (f r) = vehicle r ∧
        driver (f r) = driver r ∧ estimated_fare (f r) = estimated_fare r) →
  stable ride_records_kept (modify_ride i f).
Proof.
  intros Hf. apply stable_modify; [apply _ |]. intros w x Hx j r Hr. cbn.
  destruct (decide (i = j)) as [<- | Hne].
  - exists (f x). split; [by eapply lookup_insert_same |].
    assert (r = x) as -> by congruence. apply Hf.
  - exists r. by rewrite list_lookup_insert_ne.
Qed.

(** Whatever [find_driver] does, it leaves the rides it found and at most
    adds one after them. *)
Lemma find_driver_extends_rides pool req (w : World) :
  ∃ extra, rides (snd (find_driver pool req w)) = rides w ++ extra.
Proof.
  destruct (riders w !! request_rider req) as [rd |] eqn:Hrd; last first.
  { exists []. unfold find_driver, get_rider, bind, load. rewrite Hrd. cbn.
    by rewrite app_nil_r. }
  destruct (find_driver_loop (rider_current_location rd) pool None inf w)
    as [[[cd md] | e] w1] eqn:Hloop; last first.
  { exists []. unfold find_driver, get_rider.
    rewrite (bind_returned _ _ _ _ _ (load_Some _ _ _ _ Hrd)).
    rewrite (bind_raised _ _ _ _ _ Hloop). cbn.
    pose proof (find_driver_loop_pure (rider_current_location rd) pool None inf w)
      as Hpure. rewrite Hloop in Hpure. cbn in Hpure. subst w1.
    by rewrite app_nil_r. }
  pose proof (find_driver_loop_pure (rider_current_location rd) pool None inf w)
    as Hpure. rewrite Hloop in Hpure. cbn in Hpure. subst w1.
  destruct cd as [d |]; last first.
  { exists []. rewrite (find_driver_none _ _ _ _ _ Hrd Hloop). cbn.
    by rewrite app_nil_r. }
  destruct (find_driver_loop_inv _ _ _ _ _ _ _ _ Hloop)
    as [[=] | (d' & [= <-] & Hd & Hav)].
  unfold available in Hav. destruct (vehicle_of w d) as [v |] eqn:Hv; [| done].
  destruct (vehicle_of_Some _ _ _ Hv) as (drv & Hdrv & Hveh).
  rewrite (find_driver_exec _ _ _ _ _ _ _ _ Hrd Hloop Hdrv Hveh). cbn.
  by eexists.
Qed.

Lemma find_driver_ride_records_kept pool req :
  stable ride_records_kept (find_driver pool req).
Proof.
  intros w. destruct (find_driver_extends_rides pool req w) as [extra E].
  by eapply ride_records_kept_app.
Qed.

Lemma call_ride_records_kept c : stable ride_records_kept (call c).
Proof.
  destruct c; unfold call;
    unfold load_cash, request_ride, start_ride, end_ride, update_location,
      start_drive, add_rating, get_rider, get_ride,
      modify_rider, modify_driver, modify_vehicle.
  all: stable_steps_with
    ltac:(first
      [ apply find_driver_ride_records_kept
      | apply ride_records_kept_modify_ride; intros; by repeat split
      | apply ride_records_kept_frame; first
          [ apply stable_modify; [apply _ | intros; reflexivity]
          | intros ?; reflexivity ] ]).
Qed.

(** * Rides and wallets under every method *)

#[local] Abbreviation Method := (@Method num).
#[local] Abbreviation ride_terms_kept := (@ride_terms_kept num).
#[local] Abbreviation nonneg_wallets_kept := (@nonneg_wallets_kept num _).
#[local] Abbreviation riders_stay := (@riders_stay num).

Lemma stable_run_methods (R : relation World) `{!PreOrder R} ms :
  (∀ m, stable R (invoke m)) → ∀ w, R w (run_methods ms w).
Proof.
  intros Hm. induction ms as [| m ms IH]; intros w; cbn; [done |].
  etrans; [apply Hm | apply IH].
Qed.

(** The calls of [Call] are among the methods. *)
Lemma run_methods_calls cs (w : World) :
  run_methods (MethodCall <$> cs) w = run cs w.
Proof. revert w. induction cs as [| c cs IH]; intros w; cbn; [done | apply IH]. Qed.

(** ** What every method leaves of a ride *)

#[local] Instance ride_terms_kept_preorder : PreOrder ride_terms_kept.
Proof.
  split; [by intros w i r Hr; exists r |].
  intros w1 w2 w3 H12 H23 i r Hr.
  destruct (H12 i r Hr) as (r2 & Hr2 & E2).
  destruct (H23 i r2 Hr2) as (r3 & Hr3 & E3).
  exists r3. split; [done |]. destruct_and!. repeat split; congruence.
Qed.

Lemma ride_records_terms (w w' : World) :
  ride_records_kept w w' → ride_terms_kept w w'.
Proof.
  intros Hk i r Hr. destruct (Hk i r Hr) as (r' & Hr' & E).
  exists r'. split; [done |]. destruct_and!. by repeat split.
Qed.

Lemma ride_terms_kept_frame {A} (m : M A) :
  stable (keeps rides) m → stable ride_terms_kept m.
Proof.
  intros Hm. apply (stable_weaken ride_records_kept); [apply ride_records_terms |].
  by apply ride_records_kept_frame.
Qed.

Lemma ride_terms_kept_modify_ride i f :
  (∀ r, start_location (f r) = start_location r ∧
        end_location (f r) = end_location r ∧
        rider (f r) = rider r ∧ vehicle (f r) = vehicle r ∧
        estimated_fare (f r) = estimated_fare r) →
  stable ride_terms_kept (modify_ride i f).
Proof.
  intros Hf. apply stable_modify; [apply _ |]. intros w x Hx j r Hr. cbn.
  destruct (decide (i = j)) as [<- | Hne].
  - exists (f x). split; [by eapply lookup_insert_same |].
    assert (r = x) as -> by congruence. apply Hf.
  - exists r. by rewrite list_lookup_insert_ne.
Qed.

(** The constructor adds its ride after the rides it found, even where it
    raises for want of the vehicle. *)
Lemma Ride_init_extends_rides s e rdr veh (w : World) :
  ∃ extra, rides (snd (Ride_init s e rdr veh w)) = rides w ++ extra.
Proof.
  destruct (vehicles w !! veh) as [v |] eqn:Hv.
  - rewrite (Ride_init_exec _ _ _ _ _ _ Hv). cbn. by eexists.
  - unfold Ride_init, calculate_fare, get_ride, get_vehicle, new_ride, bind, load.
    cbn. rewrite lookup_snoc. cbn. rewrite Hv. cbn. by eexists.
Qed.

Lemma invoke_ride_terms_kept m : stable ride_terms_kept (invoke m).
Proof.
  destruct m as [c | r | d | v | s e rdr veh | self d | self | self ride
    | self rating | pool req]; unfold invoke.
  - apply (stable_weaken ride_records_kept);
      [apply ride_records_terms | apply call_ride_records_kept].
  - apply ride_terms_kept_frame. by intros w.
  - apply ride_terms_kept_frame. by intros w.
  - apply ride_terms_kept_frame. by intros w.
  - apply stable_bind; [apply _ | | intros ?; apply stable_ret, _].
    intros w. destruct (Ride_init_extends_rides s e rdr veh w) as [extra E].
    apply ride_records_terms. by eapply ride_records_kept_app.
  - apply ride_terms_kept_modify_ride. intros; by repeat split.
  - apply ride_terms_kept_frame.
    unfold calculate_fare, get_ride, get_vehicle. keeps_steps.
  - unfold accept_ride, set_driver.
    apply stable_bind; [apply _ | | intros _].
    + apply ride_terms_kept_frame. unfold modify_driver. keeps_steps.
    + apply ride_terms_kept_modify_ride. intros; by repeat split.
  - apply ride_terms_kept_frame. unfold add_rating, modify_driver. keeps_steps.
  - apply stable_bind; [apply _ | | intros ?; apply stable_ret, _].
    apply (stable_weaken ride_records_kept);
      [apply ride_records_terms | apply find_driver_ride_records_kept].
Qed.

(** X12. A ride is a record.  Under every sequence of method and constructor
    calls, [set_driver], [accept_ride] and the rest called directly among
    them, every ride stays where it is in the store and keeps its start and
    end location, its rider, its vehicle and its fare.  Its driver is
    written by [set_driver] alone, which [accept_ride] calls: a sequence of
    [load_cash], [request_ride], [start_ride], [end_ride],
    [update_location] and [start_drive] keeps the driver as well, while
    [set_driver] on a ride replaces its driver whoever that was. *)
Theorem rides_are_records (w : World) i r :
  rides w !! i = Some r →
  (∀ ms, ∃ r', rides (run_methods ms w) !! i = Some r' ∧
               start_location r' = start_location r ∧
               end_location r' = end_location r ∧
               rider r' = rider r ∧
               vehicle r' = vehicle r ∧
               estimated_fare r' = estimated_fare r) ∧
  (∀ cs, ∃ r', rides (run cs w) !! i = Some r' ∧
               start_location r' = start_location r ∧
               end_location r' = end_location r ∧
               rider r' = rider r ∧
               vehicle r' = vehicle r ∧
               driver r' = driver r ∧
               estimated_fare r' = estimated_fare r) ∧
  (∀ d, set_driver i d w =
          (Returned tt,
           mkWorld (riders w) (drivers w) (vehicles w)
             (<[i := assign_driver (Some d) r]> (rides w)) (stdout w))).
Proof.
  intros Hr. split; [| split].
  - intros ms.
    by apply (stable_run_methods ride_terms_kept ms invoke_ride_terms_kept).
  - intros cs. by apply (stable_run ride_records_kept cs call_ride_records_kept).
  - intros d. unfold set_driver, modify_ride. by erewrite modify_Some.
Qed.

(** ** The fare, from construction to settlement *)

(** No method removes a rider: the riders are written in place, and a new
    rider comes after them. *)
#[local] Instance riders_stay_preorder : PreOrder riders_stay.
Proof.
  split; [intros w | intros w1 w2 w3]; unfold riders_stay; lia.
Qed.

Lemma riders_stay_frame {A} (m : M A) :
  stable (keeps riders) m → stable riders_stay m.
Proof.
  apply stable_weaken. intros w w' E. unfold keeps, riders_stay in *. by rewrite E.
Qed.

Lemma riders_stay_modify_rider i f : stable riders_stay (modify_rider i f).
Proof.
  apply stable_modify; [apply _ |]. intros w x Hx.
  unfold riders_stay. cbn. by rewrite length_insert.
Qed.

Lemma riders_stay_new_rider r : stable riders_stay (new_rider r).
Proof. intros w. unfold riders_stay. cbn. rewrite length_app. lia. Qed.

Lemma invoke_riders_stay m : stable riders_stay (invoke m).
Proof.
  destruct m as [c | r | d | v | s e rdr veh | self d | self | self ride
    | self rating | pool req]; unfold invoke; [destruct c; unfold call | ..];
    unfold load_cash, request_ride, start_ride, end_ride, update_location,
      start_drive, accept_ride, set_driver, add_rating, Ride_init,
      calculate_fare, get_rider, get_ride, get_vehicle,
      modify_ride, modify_driver, modify_vehicle.
  all: stable_steps_with
    ltac:(first
      [ apply riders_stay_modify_rider
      | apply riders_stay_new_rider
      | apply riders_stay_frame; first
          [ apply find_driver_keeps_riders
          | apply stable_modify; [apply _ | intros; reflexivity]
          | intros ?; reflexivity ] ]).
Qed.

Lemma riders_stay_lookup (w w' : World) i rd :
  riders_stay w w' → riders w !! i = Some rd → is_Some (riders w' !! i).
Proof.
  intros Hs Hrd. apply lookup_lt_is_Some_2. apply lookup_lt_Some in Hrd.
  unfold riders_stay in Hs. lia.
Qed.

(** What [end_ride] makes of the riders, whether it goes on to return or to
    raise. *)
Lemma end_ride_riders (w : World) self r rd rating now :
  rides w !! self = Some r →
  riders w !! rider r = Some rd →
  riders (snd (end_ride self rating now w)) =
    if geb (rider_wallet rd) (estimated_fare r) then
      <[rider r := assign_rider_wallet
                      (sub (rider_wallet rd) (estimated_fare r)) rd]> (riders w)
    else riders w.
Proof.
  intros Hr Hrd.
  destruct (geb (rider_wallet rd) (estimated_fare r)) eqn:Hge; last first.
  { by rewrite (end_ride_unpaid _ _ _ _ _ _ Hr Hrd Hge). }
  unfold end_ride, modify_ride, modify_rider, get_ride, get_rider.
  exec. rewrite Hge. exec.
  match goal with |- riders (snd (?m ?w0)) = _ =>
    pose proof (end_ride_rest_keeps_riders r rating (estimated_fare r) w0) as Hm
  end.
  unfold keeps in Hm. unfold add_rating in Hm |- *. by rewrite Hm.
Qed.

(** After any sequence of calls, a ride that had its rider and a driver
    still has them, and [end_ride] returns normally and settles it at the
    fare it had: the fare moves when the wallet covers it, and nothing
    moves when it does not. *)
Lemma end_ride_after_calls (w : World) ride r rd d dv cs :
  rides w !! ride = Some r →
  riders w !! rider r = Some rd →
  driver r = Some d →
  drivers w !! d = Some dv →
  ∃ r' rd' dv',
    rides (run cs w) !! ride = Some r' ∧
    estimated_fare r' = estimated_fare r ∧
    rider r' = rider r ∧
    driver r' = Some d ∧
    riders (run cs w) !! rider r = Some rd' ∧
    drivers (run cs w) !! d = Some dv' ∧
    ∀ rating now,
      end_ride ride rating now (run cs w) =
        (Returned tt,
         if geb (rider_wallet rd') (estimated_fare r) then
           mkWorld
             (<[rider r :=
                  assign_rider_wallet (sub (rider_wallet rd') (estimated_fare r)) rd']>
                (riders (run cs w)))
             (<[d := assign_driver_rating (driver_rating dv' ++ [rating])
                       (assign_driver_wallet
                          (add (driver_wallet dv') (estimated_fare r)) dv')]>
                (drivers (run cs w)))
             (vehicles (run cs w))
             (<[ride := assign_end_time (Some now) r']> (rides (run cs w)))
             (stdout (run cs w) ++ [MsgRideEnded (estimated_fare r)])
         else
           mkWorld (riders (run cs w)) (drivers (run cs w)) (vehicles (run cs w))
             (<[ride := assign_end_time (Some now) r']> (rides (run cs w)))
             (stdout (run cs w) ++ [MsgNotEnoughBalance])).
Proof.
  intros Hr Hrd Hd Hdv.
  destruct (stable_run ride_records_kept cs call_ride_records_kept w ride r Hr)
    as (r' & Hr' & _ & _ & Hrider & _ & Hdriver & Hfare).
  destruct (stable_run ratings_extended cs call_ratings_extended w d dv Hdv)
    as (dv' & Hdv' & _ & _).
  destruct (riders_stay_lookup w (run cs w) (rider r) rd) as [rd' Hrd'];
    [| done |].
  { apply (stable_run riders_stay cs (λ c, invoke_riders_stay (MethodCall c))). }
  exists r', rd', dv'. split; [done |]. split; [done |]. split; [done |].
  split; [congruence |]. split; [done |]. split; [done |].
  intros rating now. rewrite <- Hrider in Hrd' |- *. rewrite <- Hfare.
  destruct (geb (rider_wallet rd') (estimated_fare r')) eqn:Hge.
  - apply (end_ride_paid _ _ r' rd' d dv'); [done | done | congruence | done | done].
  - by apply (end_ride_unpaid _ _ r' rd').
Qed.

(** *** How a ride comes to be in the store *)

Lemma lookup_snoc_new {A} (l : list A) x i y :
  l !! i = None → (l ++ [x]) !! i = Some y → i = length l ∧ y = x.
Proof.
  intros Hnone Hsome. apply lookup_ge_None in Hnone.
  pose proof (lookup_lt_Some _ _ _ Hsome) as Hlt.
  rewrite length_app in Hlt. cbn in Hlt.
  assert (i = length l) as -> by lia. rewrite lookup_snoc in Hsome.
  by injection Hsome as <-.
Qed.

Lemma no_new_ride (w w' : World) i r :
  length (rides w') = length (rides w) →
  rides w !! i = None → rides w' !! i = Some r → False.
Proof.
  intros E Hnone%lookup_ge_None Hsome%lookup_lt_Some. lia.
Qed.

(** The methods that write to rides in place, or not at all. *)
Ltac rides_length_steps :=
  stable_steps_with
    ltac:(first
      [ apply stable_modify; [apply _ | intros; unfold keeps; cbn;
                                        by rewrite ?length_insert]
      | intros ?; reflexivity ]).

(** What the matcher leaves: the store as it was but for one printed line,
    or the store of a match. *)
Lemma find_driver_rides pool req (w : World) :
  (rides (snd (find_driver pool req w)) = rides w ∧
   drivers (snd (find_driver pool req w)) = drivers w) ∨
  ∃ rd d drv v,
    riders w !! request_rider req = Some rd ∧
    drivers w !! d = Some drv ∧
    vehicles w !! driver_vehicle drv = Some v ∧
    rides (snd (find_driver pool req w)) =
      rides w ++
        [mkRide (rider_current_location rd) (destination req) (Some d)
           (request_rider req) (driver_vehicle drv) None None
           (round2 (mul (math_dist (rider_current_location rd) (destination req))
                        (rate v)))] ∧
    drivers (snd (find_driver pool req w)) =
      <[d := assign_driver_current_ride (Some (length (rides w))) drv]> (drivers w).
Proof.
  destruct (riders w !! request_rider req) as [rd |] eqn:Hrd; last first.
  { left. unfold find_driver, get_rider, bind, load. by rewrite Hrd. }
  destruct (find_driver_loop (rider_current_location rd) pool None inf w)
    as [[[cd md] | e] w1] eqn:Hloop; last first.
  { left. unfold find_driver, get_rider.
    rewrite (bind_returned _ _ _ _ _ (load_Some _ _ _ _ Hrd)).
    rewrite (bind_raised _ _ _ _ _ Hloop). cbn.
    pose proof (find_driver_loop_pure (rider_current_location rd) pool None inf w)
      as Hpure. rewrite Hloop in Hpure. cbn in Hpure. by subst w1. }
  pose proof (find_driver_loop_pure (rider_current_location rd) pool None inf w)
    as Hpure. rewrite Hloop in Hpure. cbn in Hpure. subst w1.
  destruct cd as [d |]; last first.
  { left. by rewrite (find_driver_none _ _ _ _ _ Hrd Hloop). }
  destruct (find_driver_loop_inv _ _ _ _ _ _ _ _ Hloop)
    as [[=] | (d' & [= <-] & Hd & Hav)].
  unfold available in Hav. destruct (vehicle_of w d) as [v |] eqn:Hv; [| done].
  destruct (vehicle_of_Some _ _ _ Hv) as (drv & Hdrv & Hveh).
  right. exists rd, d, drv, v.
  by rewrite (find_driver_exec _ _ _ _ _ _ _ _ Hrd Hloop Hdrv Hveh).
Qed.

(** [request_ride] adds to what the matcher does only the rider's current
    ride. *)
Lemma request_ride_rides self dest pool (w : World) :
  (rides (snd (request_ride self dest pool w)) = rides w ∧
   drivers (snd (request_ride self dest pool w)) = drivers w) ∨
  (rides (snd (request_ride self dest pool w)) =
     rides (snd (find_driver pool (mkRideRequest self dest) w)) ∧
   drivers (snd (request_ride self dest pool w)) =
     drivers (snd (find_driver pool (mkRideRequest self dest) w))).
Proof.
  unfold request_ride, get_rider.
  destruct (riders w !! self) as [r |] eqn:Hr; last first.
  { left. unfold bind, load. by rewrite Hr. }
  rewrite (bind_returned _ _ _ _ _ (load_Some _ _ _ _ Hr)).
  destruct (rider_current_ride r); [by left |]. right.
  pose proof (find_driver_keeps_riders pool (mkRideRequest self dest) w) as Hk.
  unfold keeps in Hk. unfold bind.
  destruct (find_driver pool (mkRideRequest self dest) w) as [[ride | e] w1];
    cbn in Hk |- *; [| done].
  unfold modify_rider, modify. by rewrite Hk, Hr.
Qed.

(** A ride that a method call has added to the store was built by
    [Ride(...)], called directly or by the matcher: its fare is worked out
    from its own route and the rate of its vehicle, and unless [Ride(...)]
    was called directly it has a driver, who is in the store. *)
Lemma invoke_new_ride (w : World) m ride r0 :
  rides w !! ride = None →
  rides (snd (invoke m w)) !! ride = Some r0 →
  (∀ v, vehicles w !! vehicle r0 = Some v →
        estimated_fare r0 =
          round2 (mul (math_dist (start_location r0) (end_location r0)) (rate v))) ∧
  ((∃ d dv, driver r0 = Some d ∧ drivers (snd (invoke m w)) !! d = Some dv) ∨
   (driver r0 = None ∧ ∃ s e rdr veh, m = MethodNewRide s e rdr veh)).
Proof.
  intros Hnone Hsome.
  assert (∀ pool req,
            (rides (snd (invoke m w)) = rides w ∧
             drivers (snd (invoke m w)) = drivers w) ∨
            (rides (snd (invoke m w)) = rides (snd (find_driver pool req w)) ∧
             drivers (snd (invoke m w)) = drivers (snd (find_driver pool req w))) →
            (∀ v, vehicles w !! vehicle r0 = Some v →
               estimated_fare r0 =
                 round2 (mul (math_dist (start_location r0) (end_location r0))
                             (rate v))) ∧
            (∃ d dv, driver r0 = Some d ∧ drivers (snd (invoke m w)) !! d = Some dv))
    as Hmatch.
  { intros pool req [[Er _] | [Er Ed]].
    { exfalso. eapply (no_new_ride w (snd (invoke m w))); [by rewrite Er | done..]. }
    destruct (find_driver_rides pool req w)
      as [[Er' _] | (rd & d & drv & v & Hrd & Hdrv & Hv & Er' & Ed')].
    { exfalso. eapply (no_new_ride w (snd (invoke m w)));
        [by rewrite Er, Er' | done..]. }
    rewrite Er, Er' in Hsome.
    destruct (lookup_snoc_new _ _ _ _ Hnone Hsome) as [-> ->]. cbn. split.
    - intros v' Hv'. congruence.
    - exists d. eexists. split; [done |]. rewrite Ed, Ed'.
      by eapply lookup_insert_same. }
  assert (stable (keeps (λ w : World, length (rides w))) (invoke m) → False)
    as Hquiet.
  { intros Hk. by eapply (no_new_ride w (snd (invoke m w))); [apply Hk | ..]. }
  destruct m as [c | r | d | v | s e rdr veh | self d | self | self ride'
    | self rating | pool req].
  - destruct c as [self amount | self dest pool | self now | self rating now
      | self loc | self].
    + exfalso. apply Hquiet. unfold invoke, call, load_cash, modify_rider.
      rides_length_steps.
    + destruct (Hmatch pool (mkRideRequest self dest)) as [Hfare Hdriver];
        [apply request_ride_rides | by split; [| left]].
    + exfalso. apply Hquiet. unfold invoke, call, start_ride, modify_ride.
      rides_length_steps.
    + exfalso. apply Hquiet.
      unfold invoke, call, end_ride, add_rating, get_ride, get_rider,
        modify_ride, modify_rider, modify_driver.
      rides_length_steps.
    + exfalso. apply Hquiet. unfold invoke, call, update_location, modify_driver.
      rides_length_steps.
    + exfalso. apply Hquiet. unfold invoke, call, start_drive, modify_vehicle.
      rides_length_steps.
  - exfalso. apply Hquiet. unfold invoke. rides_length_steps.
  - exfalso. apply Hquiet. unfold invoke. rides_length_steps.
  - exfalso. apply Hquiet. unfold invoke. rides_length_steps.
  - assert (rides (snd (invoke (MethodNewRide s e rdr veh) w)) =
              rides w ++
                [mkRide s e None rdr veh None None
                   match vehicles w !! veh with
                   | Some v => round2 (mul (math_dist s e) (rate v))
                   | None => zero
                   end]) as Er.
    { unfold invoke. destruct (vehicles w !! veh) as [v |] eqn:Hv.
      - rewrite (bind_returned _ _ _ _ _ (Ride_init_exec _ _ _ _ _ _ Hv)). done.
      - unfold Ride_init, calculate_fare, get_ride, get_vehicle, new_ride, bind, load.
        cbn. rewrite lookup_snoc. cbn. by rewrite Hv. }
    rewrite Er in Hsome.
    destruct (lookup_snoc_new _ _ _ _ Hnone Hsome) as [-> ->]. cbn. split.
    + intros v Hv. by rewrite Hv.
    + right. split; [done |]. by exists s, e, rdr, veh.
  - exfalso. apply Hquiet. unfold invoke, set_driver, modify_ride.
    rides_length_steps.
  - exfalso. apply Hquiet. unfold invoke, calculate_fare, get_ride, get_vehicle.
    rides_length_steps.
  - exfalso. apply Hquiet.
    unfold invoke, accept_ride, set_driver, modify_ride, modify_driver.
    rides_length_steps.
  - exfalso. apply Hquiet. unfold invoke, add_rating, modify_driver.
    rides_length_steps.
  - destruct (Hmatch pool req) as [Hfare Hdriver]; [| by split; [| left]].
    right. unfold invoke, bind.
    by destruct (find_driver pool req w) as [[x | x] w'].
Qed.

(** C2. The fare of a ride is [round(math.dist(start, end) * rate, 2)], worked
    out once, when the ride is made, and [end_ride] charges the stored
    value.  Take any ride that a method call adds to the store, be it
    [Ride(...)] called directly, [find_driver], or [request_ride]: its fare
    is that of its route and of the rate of its vehicle, and unless
    [Ride(...)] was called directly it has a driver.  Then, under every
    sequence of method and constructor calls ([set_driver],
    [calculate_fare], [update_location] and the rest among them), the
    stored fare, the route, the rider and the vehicle stay as they are, and
    what [end_ride] takes off the rider's wallet is the stored fare when
    the wallet covers it and nothing when it does not.  And once the ride
    has a driver, after any sequence of [load_cash], [request_ride],
    [start_ride], [end_ride], [update_location] and [start_drive] it still
    has that driver: [end_ride] returns normally, the stored fare leaves
    the rider's wallet and reaches the driver's when the wallet covers it,
    and no wallet changes when it does not. *)
Theorem fare_fixed_at_creation (w : World) (m : Method) ride r0 v rd0 :
  rides w !! ride = None →
  rides (snd (invoke m w)) !! ride = Some r0 →
  vehicles w !! vehicle r0 = Some v →
  riders w !! rider r0 = Some rd0 →
  let w1 := snd (invoke m w) in
  let fare :=
    round2 (mul (math_dist (start_location r0) (end_location r0)) (rate v)) in
  estimated_fare r0 = fare ∧
  ((∃ d dv, driver r0 = Some d ∧ drivers w1 !! d = Some dv) ∨
   (driver r0 = None ∧ ∃ s e rdr veh, m = MethodNewRide s e rdr veh)) ∧
  ∀ ms,
    let w2 := run_methods ms w1 in
    ∃ r rd,
      rides w2 !! ride = Some r ∧
      estimated_fare r = fare ∧
      start_location r = start_location r0 ∧
      end_location r = end_location r0 ∧
      rider r = rider r0 ∧
      vehicle r = vehicle r0 ∧
      riders w2 !! rider r0 = Some rd ∧
      (∀ rating now,
         riders (snd (end_ride ride rating now w2)) =
           if geb (rider_wallet rd) fare then
             <[rider r0 := assign_rider_wallet (sub (rider_wallet rd) fare) rd]>
               (riders w2)
           else riders w2) ∧
      ∀ d dv, driver r = Some d → drivers w2 !! d = Some dv →
        ∀ cs,
          let w3 := run cs w2 in
          ∃ r' rd' dv',
            rides w3 !! ride = Some r' ∧
            estimated_fare r' = fare ∧
            driver r' = Some d ∧
            riders w3 !! rider r0 = Some rd' ∧
            drivers w3 !! d = Some dv' ∧
            ∀ rating now,
              end_ride ride rating now w3 =
                (Returned tt,
                 if geb (rider_wallet rd') fare then
                   mkWorld
                     (<[rider r0 :=
                          assign_rider_wallet (sub (rider_wallet rd') fare) rd']>
                        (riders w3))
                     (<[d := assign_driver_rating (driver_rating dv' ++ [rating])
                               (assign_driver_wallet
                                  (add (driver_wallet dv') fare) dv')]>
                        (drivers w3))
                     (vehicles w3)
                     (<[ride := assign_end_time (Some now) r']> (rides w3))
                     (stdout w3 ++ [MsgRideEnded fare])
                 else
                   mkWorld (riders w3) (drivers w3) (vehicles w3)
                     (<[ride := assign_end_time (Some now) r']> (rides w3))
                     (stdout w3 ++ [MsgNotEnoughBalance])).
Proof.
  intros Hnone Hsome Hv Hrd0 w1 fare. subst w1 fare.
  destruct (invoke_new_ride w m ride r0 Hnone Hsome) as [Hfare Hdriver].
  specialize (Hfare v Hv).
  split; [done |]. split; [done |]. intros ms w2. subst w2.
  destruct (stable_run_methods ride_terms_kept ms invoke_ride_terms_kept
              (snd (invoke m w)) ride r0 Hsome) as (r & Hr & Es & Ee & Er & Ev & Ef).
  destruct (riders_stay_lookup w (run_methods ms (snd (invoke m w))) (rider r0) rd0)
    as [rd Hrd]; [| done |].
  { etrans; [apply (invoke_riders_stay m) |].
    apply (stable_run_methods riders_stay ms invoke_riders_stay). }
  exists r, rd. do 6 (split; [congruence |]). split; [done |]. split.
  - intros rating now. rewrite <- Er in Hrd |- *.
    rewrite (end_ride_riders _ _ _ _ _ _ Hr Hrd). by rewrite Ef, Hfare.
  - intros d dv Hd Hdv cs w3. subst w3. rewrite <- Er in Hrd.
    destruct (end_ride_after_calls _ ride r rd d dv cs Hr Hrd Hd Hdv)
      as (r' & rd' & dv' & Hr' & Hfare' & Hrider' & Hdriver' & Hrd' & Hdv' & Hend).
    exists r', rd', dv'. rewrite Ef, Hfare, Er in *. by repeat split.
Qed.

(** ** Wallets that are not below zero *)

#[local] Instance nonneg_wallets_kept_preorder : PreOrder nonneg_wallets_kept.
Proof.
  split; [by intros w i r Hr Hnn; exists r |].
  intros w1 w2 w3 H12 H23 i r Hr Hnn.
  destruct (H12 i r Hr Hnn) as (r2 & Hr2 & Hnn2). by apply (H23 i r2).
Qed.

Lemma nonneg_wallets_kept_app (w w' : World) extra :
  riders w' = riders w ++ extra → nonneg_wallets_kept w w'.
Proof.
  intros E i r Hr Hnn. exists r. rewrite E. split; [by apply lookup_app_l_Some | done].
Qed.

Lemma nonneg_wallets_kept_frame {A} (m : M A) :
  stable (keeps riders) m → stable nonneg_wallets_kept m.
Proof.
  apply stable_weaken. intros w w' E. apply (nonneg_wallets_kept_app _ _ []).
  unfold keeps in E. by rewrite E, app_nil_r.
Qed.

Lemma nonneg_wallets_kept_insert (w w' : World) i x y :
  riders w !! i = Some x →
  riders w' = <[i := y]> (riders w) →
  (nonneg (rider_wallet x) → nonneg (rider_wallet y)) →
  nonneg_wallets_kept w w'.
Proof.
  intros Hx E Hy j r Hr Hnn. rewrite E.
  destruct (decide (i = j)) as [<- | Hne].
  - exists y. split; [by eapply lookup_insert_same |].
    apply Hy. by assert (x = r) as -> by congruence.
  - exists r. by rewrite list_lookup_insert_ne.
Qed.

Lemma nonneg_wallets_kept_modify_rider i f :
  (∀ r, nonneg (rider_wallet r) → nonneg (rider_wallet (f r))) →
  stable nonneg_wallets_kept (modify_rider i f).
Proof.
  intros Hf. apply stable_modify; [apply _ |]. intros w x Hx.
  by eapply nonneg_wallets_kept_insert; [| reflexivity | apply Hf].
Qed.

Section Settlement.
Context {laws : PyNumLaws num}.

Lemma end_ride_nonneg_wallets self rating now :
  stable nonneg_wallets_kept (end_ride self rating now).
Proof.
  intros w. destruct (rides w !! self) as [r |] eqn:Hr; last first.
  { unfold end_ride, modify_ride, bind, modify. by rewrite Hr. }
  destruct (riders w !! rider r) as [rd |] eqn:Hrd; last first.
  { apply (nonneg_wallets_kept_app _ _ []). rewrite app_nil_r.
    unfold end_ride, modify_ride, get_ride, get_rider. exec.
    unfold bind, load. cbn. by rewrite Hrd. }
  destruct (geb (rider_wallet rd) (estimated_fare r)) eqn:Hge.
  - eapply nonneg_wallets_kept_insert; [exact Hrd | |].
    + rewrite (end_ride_riders _ _ _ _ _ _ Hr Hrd), Hge. reflexivity.
    + intros _. by apply sub_geb_zero.
  - apply (nonneg_wallets_kept_app _ _ []). rewrite app_nil_r.
    by rewrite (end_ride_riders _ _ _ _ _ _ Hr Hrd), Hge.
Qed.

Lemma call_nonneg_wallets c : stable nonneg_wallets_kept (call c).
Proof.
  destruct c; unfold call.
  - unfold load_cash. destruct (gtb amount zero) eqn:Hgt; [| by intros w].
    apply nonneg_wallets_kept_modify_rider. intros r Hr. by apply add_geb_zero.
  - unfold request_ride, get_rider.
    stable_steps_with
      ltac:(first
        [ apply nonneg_wallets_kept_modify_rider; intros r Hr; exact Hr
        | apply nonneg_wallets_kept_frame, find_driver_keeps_riders ]).
  - apply nonneg_wallets_kept_frame. unfold start_ride, modify_ride. keeps_steps.
  - apply end_ride_nonneg_wallets.
  - apply nonneg_wallets_kept_frame. unfold update_location, modify_driver.
    keeps_steps.
  - apply nonneg_wallets_kept_frame. unfold start_drive, modify_vehicle.
    keeps_steps.
Qed.

Lemma invoke_nonneg_wallets m : stable nonneg_wallets_kept (invoke m).
Proof.
  destruct m as [c | r | d | v | s e rdr veh | self d | self | self ride
    | self rating | pool req]; unfold invoke.
  - apply call_nonneg_wallets.
  - intros w. by apply (nonneg_wallets_kept_app _ _ [r]).
  - apply nonneg_wallets_kept_frame. by intros w.
  - apply nonneg_wallets_kept_frame. by intros w.
  - apply nonneg_wallets_kept_frame.
    unfold Ride_init, calculate_fare, get_ride, get_vehicle, modify_ride.
    keeps_steps.
  - apply nonneg_wallets_kept_frame. unfold set_driver, modify_ride. keeps_steps.
  - apply nonneg_wallets_kept_frame.
    unfold calculate_fare, get_ride, get_vehicle. keeps_steps.
  - apply nonneg_wallets_kept_frame.
    unfold accept_ride, set_driver, modify_driver, modify_ride. keeps_steps.
  - apply nonneg_wallets_kept_frame. unfold add_rating, modify_driver. keeps_steps.
  - apply nonneg_wallets_kept_frame.
    apply stable_bind; [apply _ | apply find_driver_keeps_riders |].
    intros ?. apply stable_ret, _.
Qed.

(** The same of the store as a whole: if no rider's wallet is below zero,
    none is after any sequence of calls. *)
Lemma all_wallets_stay_nonneg (w : World) cs :
  wallets_nonneg w → wallets_nonneg (run cs w).
Proof. apply (stable_run (preserves wallets_nonneg) cs call_wallets). Qed.

(** C8, as the code has it.  A rider whose wallet is not below zero is still
    in the store, with a wallet that is not below zero, after any sequence
    of method and constructor calls, settlements and cash loads among them,
    whatever the wallets of the other riders are.  [end_ride] on a ride of
    that rider takes the fare off the wallet when the wallet covers it, and
    what is left is not below zero; when the wallet does not cover it,
    [end_ride] takes nothing from anyone and returns normally. *)
Theorem rider_wallets_stay_nonneg (w : World) i rd :
  riders w !! i = Some rd →
  nonneg (rider_wallet rd) →
  (∀ ms, ∃ rd', riders (run_methods ms w) !! i = Some rd' ∧
                nonneg (rider_wallet rd')) ∧
  (∀ self r rating now,
     rides w !! self = Some r → rider r = i →
     let res := end_ride self rating now w in
     if geb (rider_wallet rd) (estimated_fare r) then
       riders (snd res) !! i =
         Some (assign_rider_wallet (sub (rider_wallet rd) (estimated_fare r)) rd) ∧
       nonneg (sub (rider_wallet rd) (estimated_fare r))
     else
       fst res = Returned tt ∧
       riders (snd res) = riders w ∧ drivers (snd res) = drivers w ∧
       stdout (snd res) = stdout w ++ [MsgNotEnoughBalance]).
Proof.
  intros Hrd Hnn. split.
  - intros ms.
    by apply (stable_run_methods nonneg_wallets_kept ms invoke_nonneg_wallets w i rd).
  - intros self r rating now Hr <- res. subst res.
    destruct (geb (rider_wallet rd) (estimated_fare r)) eqn:Hge.
    + rewrite (end_ride_riders _ _ _ _ _ _ Hr Hrd), Hge.
      split; [by eapply lookup_insert_same | by apply sub_geb_zero].
    + by rewrite (end_ride_unpaid _ _ _ _ _ _ Hr Hrd Hge).
Qed.

End Settlement.

(** * Properties of the program around the store *)

Section ProgramProperties.
Context {lit : PyInt num}.
#[local] Abbreviation Program := (@Program num).
#[local] Abbreviation P := (@P num).
#[local] Abbreviation Step := (@Step num).
#[local] Abbreviation user_ids := (@user_ids num).
#[local] Abbreviation ids_kept := (@ids_kept num).
#[local] Abbreviation ids_fresh := (@ids_fresh num).
#[local] Abbreviation lists_laid_out := (@lists_laid_out num).

Lemma lift_bind {A B} (m : M A) (k : A → M B) (p : Program) :
  lift (bind m k) p = bind (lift m) (λ x, lift (k x)) p.
Proof.
  unfold lift, bind. cbn. by destruct (m (objects p)) as [[v | e] w'].
Qed.

Lemma with_objects_id (p : Program) : with_objects (objects p) p = p.
Proof. by destruct p. Qed.

(** ** Ids *)

Lemma user_ids_frame {A} (m : M A) :
  stable (keeps (λ w, (riders w, drivers w))) m → stable (keeps user_ids) m.
Proof.
  apply stable_weaken. intros w w' [= Er Ed]. unfold keeps, user_ids.
  by rewrite Er, Ed.
Qed.

Lemma user_ids_modify_rider i f :
  (∀ x, rider_id (f x) = rider_id x) →
  stable (keeps user_ids) (modify_rider i f).
Proof.
  intros Hf. apply stable_modify; [apply _ |]. intros w x Hx.
  unfold keeps, user_ids. cbn. by rewrite (fmap_insert_kept _ _ _ _ _ Hx).
Qed.

Lemma user_ids_modify_driver i f :
  (∀ x, driver_id (f x) = driver_id x) →
  stable (keeps user_ids) (modify_driver i f).
Proof.
  intros Hf. apply stable_modify; [apply _ |]. intros w x Hx.
  unfold keeps, user_ids. cbn. by rewrite (fmap_insert_kept _ _ _ _ _ Hx).
Qed.

Ltac user_ids_steps :=
  stable_steps_with
    ltac:(first
      [ apply user_ids_modify_rider; intros; reflexivity
      | apply user_ids_modify_driver; intros; reflexivity
      | apply user_ids_frame; first
          [ apply find_driver_loop_keeps
          | apply stable_modify; [apply _ | intros; reflexivity]
          | intros ?; reflexivity ] ]).

Lemma find_driver_keeps_user_ids pool req :
  stable (keeps user_ids) (find_driver pool req).
Proof.
  unfold find_driver, Ride_init, calculate_fare, accept_ride, set_driver,
    get_rider, get_driver, get_ride, get_vehicle, modify_ride.
  user_ids_steps.
Qed.

Lemma call_keeps_user_ids c : stable (keeps user_ids) (call c).
Proof.
  destruct c; unfold call;
    unfold load_cash, request_ride, start_ride, end_ride, update_location,
      start_drive, add_rating, get_rider, get_ride, modify_ride, modify_vehicle.
  all: stable_steps_with
         ltac:(first [ apply find_driver_keeps_user_ids | fail ]);
       user_ids_steps.
Qed.

#[local] Instance ids_kept_preorder : PreOrder ids_kept.
Proof.
  split; [by intros p |].
  intros p1 p2 p3 [E12 C12] [E23 C23]. split; congruence.
Qed.

Lemma pstable_bind {A B} (R : relation Program) `{!PreOrder R}
    (m : P A) (k : A → P B) :
  pstable R m → (∀ v, pstable R (k v)) → pstable R (bind m k).
Proof.
  intros Hm Hk p. unfold bind. specialize (Hm p).
  destruct (m p) as [[v | e] p']; cbn in *; [| done].
  by etrans; [| apply Hk].
Qed.

Lemma ids_kept_lift {A} (m : M A) :
  stable (keeps user_ids) m → pstable ids_kept (lift m).
Proof. intros Hm p. split; [apply Hm | done]. Qed.

Lemma Rider_request_ride_ids_kept self dest m :
  pstable ids_kept (Rider_request_ride self dest m).
Proof.
  unfold Rider_request_ride, RideMatching_find_driver.
  apply pstable_bind;
    [apply _ | apply ids_kept_lift, stable_load; apply _ |].
  intros r. destruct (rider_current_ride r); [by intros p |].
  apply pstable_bind; [apply _ | | intros ride].
  - apply pstable_bind; [apply _ | | intros l].
    { intros p. unfold get_matcher. by destruct (matchers p !! m). }
    apply pstable_bind; [apply _ | | intros pool].
    { intros p. unfold get_list. by destruct (lists p !! l). }
    apply ids_kept_lift, find_driver_keeps_user_ids.
  - apply ids_kept_lift. by apply user_ids_modify_rider.
Qed.

Lemma ids_fresh_new (p : Program) w' :
  ids_fresh p →
  user_ids w' ≡ₚ id_counter p :: user_ids (objects p) →
  ids_fresh (mkProgram w' (S (id_counter p)) (lists p) (companies p) (matchers p)).
Proof.
  intros (Hnd & Hlt & Hc) Hperm. unfold ids_fresh. cbn. rewrite Hperm.
  split; [| split; [| lia]].
  - apply NoDup_cons. split; [| done]. intros Hin.
    rewrite list.Forall_forall in Hlt. specialize (Hlt _ Hin). lia.
  - constructor; [lia |]. eapply Forall_impl; [exact Hlt |]. cbn. lia.
Qed.

Lemma ids_fresh_kept (p p' : Program) : ids_kept p p' → ids_fresh p → ids_fresh p'.
Proof. intros [E C] Hp. unfold ids_fresh. by rewrite E, C. Qed.

Lemma step_ids_fresh s (p : Program) : ids_fresh p → ids_fresh (snd (step s p)).
Proof.
  intros Hp. destruct s; unfold step.
  - by destruct p.
  - apply (ids_fresh_kept p); [| done]. unfold add_rider, bind, get_company.
    destruct (companies p !! self); [| done]. unfold list_append.
    by destruct (lists p !! _).
  - apply (ids_fresh_kept p); [| done]. unfold add_driver, bind, get_company.
    destruct (companies p !! self); [| done]. unfold list_append.
    by destruct (lists p !! _).
  - destruct p as [w c ls cos ms].
    apply (ids_fresh_new (mkProgram w c ls cos ms)); [done |].
    unfold user_ids. cbn. rewrite fmap_app. cbn. by solve_Permutation.
  - destruct p as [w c ls cos ms].
    apply (ids_fresh_new (mkProgram w c ls cos ms)); [done |].
    unfold user_ids. cbn. rewrite fmap_app. cbn. by solve_Permutation.
  - by destruct p.
  - by destruct p.
  - by destruct p.
  - by destruct p.
  - eapply ids_fresh_kept; [apply Rider_request_ride_ids_kept | done].
  - eapply ids_fresh_kept; [apply ids_kept_lift, call_keeps_user_ids | done].
Qed.

(** X9. Ids are never shared.  In every state a program can reach from its
    start, whatever it constructs and calls, the ids of its riders and
    drivers are pairwise distinct, are at least 1, and lie below
    [User.id_counter]. *)
Theorem user_ids_unique ss :
  NoDup (user_ids (objects (steps ss start))) ∧
  Forall (λ i, 1 ≤ i < id_counter (steps ss start))
         (user_ids (objects (steps ss start))).
Proof.
  assert (∀ p : Program, ids_fresh p → ids_fresh (steps ss p)) as Hsteps.
  { induction ss as [| s ss IH]; intros p Hp; [done |].
    cbn. by apply IH, step_ids_fresh. }
  assert (ids_fresh start) as Hstart.
  { split; [constructor | split; [constructor | done]]. }
  by destruct (Hsteps start Hstart) as (Hnd & Hlt & _).
Qed.

(** ** Lists *)

Lemma Rider_request_ride_via (p : Program) self dest m l pool :
  matchers p !! m = Some l →
  lists p !! l = Some pool →
  Rider_request_ride self dest m p = lift (request_ride self dest pool) p.
Proof.
  intros Hm Hl.
  unfold Rider_request_ride, request_ride, RideMatching_find_driver.
  unfold lift, bind, get_rider, load, get_matcher, get_list, ret.
  cbn [objects id_counter lists companies matchers with_objects fst snd].
  destruct (riders (objects p) !! self) as [r |];
    cbn [objects id_counter lists companies matchers with_objects fst snd];
    [| done].
  destruct (rider_current_ride r);
    cbn [objects id_counter lists companies matchers with_objects fst snd];
    [done |].
  rewrite Hm.
  cbn [objects id_counter lists companies matchers with_objects fst snd].
  rewrite Hl.
  cbn [objects id_counter lists companies matchers with_objects fst snd].
  by destruct (find_driver pool (mkRideRequest self dest) (objects p))
    as [[ride | e] w1].
Qed.

(** X10. The matcher shares the company's list.  A matcher built on
    [company.drivers] sees a driver that [add_driver] puts on the list
    afterwards: from then on [find_driver] and [request_ride] through that
    matcher run over the old pool followed by the new driver. *)
Theorem matcher_sees_later_drivers (p : Program) c co m pool d :
  companies p !! c = Some co →
  matchers p !! m = Some (company_drivers co) →
  lists p !! company_drivers co = Some pool →
  let p' := snd (add_driver c d p) in
  fst (add_driver c d p) = Returned tt ∧
  (∀ req,
     RideMatching_find_driver m req p' = lift (find_driver (pool ++ [d]) req) p') ∧
  (∀ self dest,
     Rider_request_ride self dest m p'
       = lift (request_ride self dest (pool ++ [d])) p').
Proof.
  intros Hc Hm Hl p'.
  assert (add_driver c d p =
          (Returned tt,
           with_lists (<[company_drivers co := pool ++ [d]]> (lists p)) p)) as Hadd.
  { unfold add_driver, bind, get_company, list_append. by rewrite Hc, Hl. }
  subst p'. rewrite Hadd. cbn [fst snd]. split; [done |].
  assert (lists (with_lists (<[company_drivers co := pool ++ [d]]> (lists p)) p)
            !! company_drivers co = Some (pool ++ [d])) as Hl'.
  { cbn. by eapply lookup_insert_same. }
  split.
  - intros req. unfold RideMatching_find_driver, get_matcher, get_list.
    unfold bind. cbn [matchers with_lists]. rewrite Hm. by rewrite Hl'.
  - intros self dest. by eapply Rider_request_ride_via.
Qed.

(** ** The company's lists *)

Lemma Rider_request_ride_keeps_lists self dest m (p : Program) :
  lists (snd (Rider_request_ride self dest m p)) = lists p ∧
  companies (snd (Rider_request_ride self dest m p)) = companies p.
Proof.
  unfold Rider_request_ride, RideMatching_find_driver.
  unfold lift, bind, get_rider, load, get_matcher, get_list, ret.
  cbn [objects id_counter lists companies matchers with_objects fst snd].
  destruct (riders (objects p) !! self) as [r |]; [| done].
  cbn [objects id_counter lists companies matchers with_objects fst snd].
  destruct (rider_current_ride r); [done |].
  cbn [objects id_counter lists companies matchers with_objects fst snd].
  destruct (matchers p !! m) as [l |]; [| done].
  cbn [objects id_counter lists companies matchers with_objects fst snd].
  destruct (lists p !! l) as [pool |]; [| done].
  cbn [objects id_counter lists companies matchers with_objects fst snd].
  by destruct (find_driver pool (mkRideRequest self dest) (objects p))
    as [[ride | e] w1].
Qed.

Lemma Ride_Sharing_init_exec (p : Program) name :
  Ride_Sharing_init name p =
    (Returned (length (companies p)),
     mkProgram (objects p) (id_counter p) (lists p ++ [[]; []; []])
       (companies p ++
          [mkRide_Sharing name (length (lists p)) (length (lists p) + 1)
             (length (lists p) + 2)])
       (matchers p)).
Proof.
  destruct p as [w c ls cos ms].
  unfold Ride_Sharing_init, new_list, bind, with_companies, with_lists. cbn.
  rewrite !length_app, <- !(assoc_L (++)). cbn.
  by rewrite <- Nat.add_assoc.
Qed.

Lemma step_lists_laid_out s (p : Program) :
  lists_laid_out p → lists_laid_out (snd (step s p)).
Proof.
  intros [Hlen Hco]. destruct s; unfold step.
  - unfold forget, bind. rewrite Ride_Sharing_init_exec. cbn [fst snd ret].
    split; cbn [lists companies].
    + rewrite !length_app. cbn. lia.
    + intros k co Hk. apply lookup_app_Some in Hk as [Hk | [Hge Hk]].
      * destruct (Hco k co Hk) as (Hd & Hr & Hrd & Hemp).
        repeat split; try done. by apply lookup_app_l_Some.
      * apply list_lookup_singleton_Some in Hk as [Hk <-].
        cbn [company_drivers company_riders company_rides].
        assert (k = length (companies p)) as -> by lia.
        repeat split; try lia.
        rewrite lookup_app_r by lia.
        by replace (3 * length (companies p) + 2 - length (lists p)) with 2 by lia.
  - unfold add_rider, bind, get_company.
    destruct (companies p !! self) as [co0 |] eqn:Hself; [| done].
    unfold list_append. destruct (lists p !! company_riders co0); [| done].
    destruct (Hco _ _ Hself) as (_ & Hr0 & _). cbn [snd]. split.
    + cbn. by rewrite length_insert.
    + intros k co Hk. destruct (Hco k co Hk) as (Hd & Hr & Hrd & Hemp).
      repeat split; try done. cbn. rewrite list_lookup_insert_ne by lia. done.
  - unfold add_driver, bind, get_company.
    destruct (companies p !! self) as [co0 |] eqn:Hself; [| done].
    unfold list_append. destruct (lists p !! company_drivers co0); [| done].
    destruct (Hco _ _ Hself) as (Hd0 & _). cbn [snd]. split.
    + cbn. by rewrite length_insert.
    + intros k co Hk. destruct (Hco k co Hk) as (Hd & Hr & Hrd & Hemp).
      repeat split; try done. cbn. rewrite list_lookup_insert_ne by lia. done.
  - by destruct p.
  - by destruct p.
  - by destruct p.
  - by destruct p.
  - by destruct p.
  - by destruct p.
  - destruct (Rider_request_ride_keeps_lists self dest ride_matching p) as [El Ec].
    split; [by rewrite El, Ec |]. intros k co. rewrite El, Ec. by apply Hco.
  - by destruct p.
Qed.

(** X11. The company keeps no record of rides.  In every state a program
    can reach from its start, the [rides] list of every company is empty:
    [add_rider] and [add_driver] write the other two lists, and matching,
    starting and ending a ride write none. *)
Theorem company_rides_stay_empty ss k co :
  companies (steps ss start) !! k = Some co →
  lists (steps ss start) !! company_rides co = Some [].
Proof.
  assert (∀ p : Program, lists_laid_out p → lists_laid_out (steps ss p)) as Hsteps.
  { induction ss as [| s ss IH]; intros p Hp; [done |].
    cbn. by apply IH, step_lists_laid_out. }
  assert (lists_laid_out start) as Hstart by (split; [done | by intros ? ? ?]).
  destruct (Hsteps start Hstart) as [_ Hco]. intros Hk.
  destruct (Hco k co Hk) as (_ & _ & -> & Hemp). done.
Qed.

End ProgramProperties.

End Properties.

(** * The claims on the whole-number instance *)

#[local] Existing Instance ZNum.

Lemma ZNum_laws : PyNumLaws Z.
Proof.
  split; cbn.
  - apply Z.ltb_irrefl.
  - intros a b c Hab%Z.ltb_lt Hbc%Z.ltb_lt. apply Z.ltb_lt. lia.
  - intros a b c Hac%Z.ltb_lt.
    destruct (Z.ltb_spec a b); [by left | right; apply Z.ltb_lt; lia].
  - intros a b Hab. apply Z.geb_le. apply Z.geb_le in Hab. lia.
  - intros a b Ha Hb. apply Z.geb_le. apply Z.geb_le in Ha.
    apply Z.gtb_lt in Hb. lia.
Defined.

Section Examples.
Import Demo.
Open Scope Z_scope.
#[local] Existing Instance ZInt.

(** The demo run of the source, in [town]: Alice is matched with Bob, the
    nearer driver, for a fare of 5 * 15; ending the ride with rating 5
    moves 75 from her wallet to his. *)
Example demo_run :
  run [CallRequestRide 0%nat uptown pool; CallStartRide 0%nat 1%nat;
       CallEndRide 0%nat 5 2%nat] town =
  mkWorld
    [mkRider "Alice" "alice@email.com" 1 "1234" 425 (10, 10) (Some 0%nat); carol]
    [mkDriver "Bob" "bob@email.com" 3 "5678" 75 (11, 10) 0%nat [5] (Some 0%nat);
     john]
    [car; bike]
    [mkRide (10, 10) (13, 14) (Some 0%nat) 0%nat 0%nat (Some 1%nat) (Some 2%nat) 75]
    [MsgRideMatched "Bob" 75; MsgRideEnded 75].
Proof. reflexivity. Qed.

(** [town] is a store a program can build, and so is whatever a run of
    calls makes of it. *)
Example town_wf : wf town.
Proof. split; repeat constructor. Qed.

(** A non-positive amount is ignored. *)
Example load_cash_ignores_negative : load_cash 0%nat (-5) town = (Returned tt, town).
Proof. reflexivity. Qed.

(** A ride built by hand has no driver until [set_driver] is called.
    Ending it raises, after the rider has been charged. *)
Example end_ride_without_driver :
  end_ride 0%nat 5 2%nat (snd (Ride_init (10, 10) uptown 0%nat 0%nat town)) =
  (Raised AttributeError,
   mkWorld
     [mkRider "Alice" "alice@email.com" 1 "1234" 425 (10, 10) None; carol]
     [bob; john] [car; bike]
     [mkRide (10, 10) uptown None 0%nat 0%nat None (Some 2%nat) 75] []).
Proof. reflexivity. Qed.

(** With both drivers equally near, the match goes to whichever the pool
    lists first. *)
Example tie_goes_to_first :
  distance_from level (10, 10) 0%nat = 1 ∧
  distance_from level (10, 10) 1%nat = 1 ∧
  driver <$> rides (snd (find_driver [0%nat; 1%nat] (mkRideRequest 0%nat uptown) level))
               !! 0%nat = Some (Some 0%nat) ∧
  driver <$> rides (snd (find_driver [1%nat; 0%nat] (mkRideRequest 0%nat uptown) level))
               !! 0%nat = Some (Some 1%nat).
Proof. repeat split; reflexivity. Qed.

(** In [town] the hypotheses of C1 hold and the match goes to Bob. *)
Lemma find_driver_nearest_first_witness :
  ∃ i d ride r,
    fst (find_driver pool (mkRideRequest 0%nat uptown) town) = Returned (Some ride) ∧
    rides (snd (find_driver pool (mkRideRequest 0%nat uptown) town)) !! ride = Some r ∧
    driver r = Some d ∧
    pool !! i = Some d ∧ available town d = true ∧
    (∀ d', d' ∈ pool → available town d' = true →
       ltb (distance_from town (10, 10) d') (distance_from town (10, 10) d) = false) ∧
    (∀ j d', (j < i)%nat → pool !! j = Some d' → available town d' = true →
       ltb (distance_from town (10, 10) d) (distance_from town (10, 10) d') = true).
Proof.
  apply (find_driver_nearest_first (laws := ZNum_laws) town pool
           (mkRideRequest 0%nat uptown) alice).
  - reflexivity.
  - repeat constructor; eexists; reflexivity.
  - repeat constructor; reflexivity.
  - left. reflexivity.
Defined.

(** In [town] Alice's request adds ride 0 to the store: from (10,10) to
    (13,14) in Bob's car, at a fare of 5 * 15. *)
Lemma fare_fixed_at_creation_witness :
  let m := MethodCall (CallRequestRide 0%nat uptown pool) in
  let w1 := snd (invoke m town) in
  let r0 := mkRide (10, 10) uptown (Some 0%nat) 0%nat 0%nat None None 75 in
  estimated_fare r0 = 75 ∧
  ((∃ d dv, driver r0 = Some d ∧ drivers w1 !! d = Some dv) ∨
   (driver r0 = None ∧ ∃ s e rdr veh, m = MethodNewRide s e rdr veh)) ∧
  ∀ ms,
    let w2 := run_methods ms w1 in
    ∃ r rd,
      rides w2 !! 0%nat = Some r ∧
      estimated_fare r = 75 ∧
      start_location r = (10, 10) ∧
      end_location r = uptown ∧
      rider r = 0%nat ∧
      vehicle r = 0%nat ∧
      riders w2 !! 0%nat = Some rd ∧
      (∀ rating now,
         riders (snd (end_ride 0%nat rating now w2)) =
           if geb (rider_wallet rd) 75 then
             <[0%nat := assign_rider_wallet (rider_wallet rd - 75) rd]> (riders w2)
           else riders w2) ∧
      ∀ d dv, driver r = Some d → drivers w2 !! d = Some dv →
        ∀ cs,
          let w3 := run cs w2 in
          ∃ r' rd' dv',
            rides w3 !! 0%nat = Some r' ∧
            estimated_fare r' = 75 ∧
            driver r' = Some d ∧
            riders w3 !! 0%nat = Some rd' ∧
            drivers w3 !! d = Some dv' ∧
            ∀ rating now,
              end_ride 0%nat rating now w3 =
                (Returned tt,
                 if geb (rider_wallet rd') 75 then
                   mkWorld
                     (<[0%nat := assign_rider_wallet (rider_wallet rd' - 75) rd']>
                        (riders w3))
                     (<[d := assign_driver_rating (driver_rating dv' ++ [rating])
                               (assign_driver_wallet (driver_wallet dv' + 75) dv')]>
                        (drivers w3))
                     (vehicles w3)
                     (<[0%nat := assign_end_time (Some now) r']> (rides w3))
                     (stdout w3 ++ [MsgRideEnded 75])
                 else
                   mkWorld (riders w3) (drivers w3) (vehicles w3)
                     (<[0%nat := assign_end_time (Some now) r']> (rides w3))
                     (stdout w3 ++ [MsgNotEnoughBalance])).
Proof.
  refine (fare_fixed_at_creation town
            (MethodCall (CallRequestRide 0%nat uptown pool)) 0%nat
            (mkRide (10, 10) uptown (Some 0%nat) 0%nat 0%nat None None 75)
            car alice _ _ _ _); reflexivity.
Defined.

(** The three ways a ride is made, in figures: built by hand, found by the
    matcher, and requested; and the requested ride ended, which moves 75
    from Alice to Bob. *)
Example matched_fare_in_town :
  hand_built =
    mkWorld [alice; carol] [bob; john] [car; bike]
      [mkRide (10, 10) uptown None 0%nat 0%nat None None 75] [] ∧
  find_driver pool (mkRideRequest 0%nat uptown) town =
    (Returned (Some 0%nat),
     mkWorld [alice; carol]
       [mkDriver "Bob" "bob@email.com" 3 "5678" 0 (11, 10) 0%nat [] (Some 0%nat);
        john]
       [car; bike]
       [mkRide (10, 10) uptown (Some 0%nat) 0%nat 0%nat None None 75]
       [MsgRideMatched "Bob" 75]) ∧
  alice_matched =
    mkWorld [alice_riding_rider; carol] [alice_riding_driver; john] [car; bike]
      [mkRide (10, 10) uptown (Some 0%nat) 0%nat 0%nat None None 75]
      [MsgRideMatched "Bob" 75] ∧
  end_ride 0%nat 5 2%nat alice_matched =
    (Returned tt,
     mkWorld
       [mkRider "Alice" "alice@email.com" 1 "1234" 425 (10, 10) (Some 0%nat); carol]
       [mkDriver "Bob" "bob@email.com" 3 "5678" 75 (11, 10) 0%nat [5] (Some 0%nat);
        john]
       [car; bike]
       [mkRide (10, 10) uptown (Some 0%nat) 0%nat 0%nat None (Some 2%nat) 75]
       [MsgRideMatched "Bob" 75; MsgRideEnded 75]).
Proof. repeat split; reflexivity. Qed.

(** C3 fails where Carol, holding 50, ends her started ride of fare 75: the
    call does not fail, and the ride it leaves behind is not the one it
    found: its end timestamp is set and it reads as Ended. *)
Lemma end_ride_unpaid_counterexample :
  ride_status <$> rides carol_riding !! 0%nat = Some Started ∧
  rider_wallet <$> riders carol_riding !! 1%nat = Some 50 ∧
  estimated_fare <$> rides carol_riding !! 0%nat = Some 75 ∧
  ltb 50 75 = true ∧
  ¬ fails (end_ride 0%nat 5 2%nat carol_riding) ∧
  snd (end_ride 0%nat 5 2%nat carol_riding) ≠ carol_riding ∧
  end_time <$> rides (snd (end_ride 0%nat 5 2%nat carol_riding)) !! 0%nat
    = Some (Some 2%nat) ∧
  ride_status <$> rides (snd (end_ride 0%nat 5 2%nat carol_riding)) !! 0%nat
    = Some Ended.
Proof.
  repeat split; try reflexivity.
  - intros [e He]. vm_compute in He. discriminate He.
  - intros E. apply (f_equal rides) in E. vm_compute in E. discriminate E.
Qed.

Lemma end_ride_insufficient_funds_witness :
  fst (end_ride 0%nat 5 2%nat carol_riding) = Returned tt ∧
  riders (snd (end_ride 0%nat 5 2%nat carol_riding)) = riders carol_riding ∧
  drivers (snd (end_ride 0%nat 5 2%nat carol_riding)) = drivers carol_riding ∧
  vehicles (snd (end_ride 0%nat 5 2%nat carol_riding)) = vehicles carol_riding ∧
  rides (snd (end_ride 0%nat 5 2%nat carol_riding)) =
    <[0%nat := mkRide (10, 10) uptown (Some 0%nat) 1%nat 0%nat (Some 1%nat)
                 (Some 2%nat) 75]> (rides carol_riding) ∧
  stdout (snd (end_ride 0%nat 5 2%nat carol_riding)) =
    stdout carol_riding ++ [MsgNotEnoughBalance].
Proof.
  apply (end_ride_insufficient_funds carol_riding 0%nat
           (mkRide (10, 10) uptown (Some 0%nat) 1%nat 0%nat (Some 1%nat) None 75)
           carol_riding_rider 5 2%nat); reflexivity.
Defined.

(** C4 fails in [town].  Alice's request is matched with Bob and the ride is
    bound to both of them, but Bob's car still reads 'available' while the
    ride has not even started, and Carol's request is matched with Bob as
    well.  [start_drive], which would mark the car, is called nowhere. *)
Theorem matched_driver_stays_available :
  fst (find_driver pool (mkRideRequest 0%nat uptown) town) = Returned (Some 0%nat) ∧
  rider_current_ride <$> riders alice_matched !! 0%nat = Some (Some 0%nat) ∧
  driver_current_ride <$> drivers alice_matched !! 0%nat = Some (Some 0%nat) ∧
  driver <$> rides alice_matched !! 0%nat = Some (Some 0%nat) ∧
  ride_status <$> rides alice_matched !! 0%nat = Some Created ∧
  status <$> vehicles alice_matched !! 0%nat = Some "available"%string ∧
  fst (find_driver pool (mkRideRequest 1%nat uptown) alice_matched)
    = Returned (Some 1%nat) ∧
  driver <$> rides (snd (find_driver pool (mkRideRequest 1%nat uptown) alice_matched))
               !! 1%nat = Some (Some 0%nat).
Proof. repeat split; reflexivity. Qed.

(** C5 does not hold of the code.  Alice ends her started ride in [town]:
    the call returns normally, the end time is recorded so that the ride
    reads as Ended, and 75 goes from her wallet to Bob's; but Bob's current
    ride is still that ride, and so is Alice's.  Where Bob's car had been
    driven off after the match, it is still 'unavailable' after the ride
    has ended, and a matcher that holds Bob alone finds no driver for
    Carol.  The release is the counterpart of the reservation that C4
    misses: [end_ride] resets no status and clears no [current_ride], and
    neither does anything else. *)
Theorem ended_ride_keeps_driver_reserved :
  ride_status <$> rides alice_riding !! 0%nat = Some Started ∧
  fst (end_ride 0%nat 5 2%nat alice_riding) = Returned tt ∧
  ride_status <$> rides (snd (end_ride 0%nat 5 2%nat alice_riding)) !! 0%nat
    = Some Ended ∧
  end_time <$> rides (snd (end_ride 0%nat 5 2%nat alice_riding)) !! 0%nat
    = Some (Some 2%nat) ∧
  rider_wallet <$> riders (snd (end_ride 0%nat 5 2%nat alice_riding)) !! 0%nat
    = Some 425 ∧
  driver_wallet <$> drivers (snd (end_ride 0%nat 5 2%nat alice_riding)) !! 0%nat
    = Some 75 ∧
  driver_current_ride <$> drivers (snd (end_ride 0%nat 5 2%nat alice_riding)) !! 0%nat
    = Some (Some 0%nat) ∧
  rider_current_ride <$> riders (snd (end_ride 0%nat 5 2%nat alice_riding)) !! 0%nat
    = Some (Some 0%nat) ∧
  status <$> vehicles alice_riding_car_out !! 0%nat = Some "unavailable"%string ∧
  fst (end_ride 0%nat 5 2%nat alice_riding_car_out) = Returned tt ∧
  ride_status <$> rides (snd (end_ride 0%nat 5 2%nat alice_riding_car_out)) !! 0%nat
    = Some Ended ∧
  status <$> vehicles (snd (end_ride 0%nat 5 2%nat alice_riding_car_out)) !! 0%nat
    = Some "unavailable"%string ∧
  available (snd (end_ride 0%nat 5 2%nat alice_riding_car_out)) 0%nat = false ∧
  fst (find_driver [0%nat] (mkRideRequest 1%nat uptown)
         (snd (end_ride 0%nat 5 2%nat alice_riding_car_out))) = Returned None.
Proof. repeat split; reflexivity. Qed.

Lemma end_ride_keeps_driver_bound_witness :
  fst (end_ride 0%nat 5 2%nat alice_riding) = Returned tt ∧
  (∃ r', rides (snd (end_ride 0%nat 5 2%nat alice_riding)) !! 0%nat = Some r' ∧
         end_time r' = Some 2%nat ∧ ride_status r' = Ended) ∧
  vehicles (snd (end_ride 0%nat 5 2%nat alice_riding)) = vehicles alice_riding ∧
  (∃ dv', drivers (snd (end_ride 0%nat 5 2%nat alice_riding)) !! 0%nat = Some dv' ∧
          driver_current_ride dv' = Some 0%nat ∧ driver_vehicle dv' = 0%nat) ∧
  available (snd (end_ride 0%nat 5 2%nat alice_riding)) 0%nat
    = available alice_riding 0%nat.
Proof.
  refine (end_ride_keeps_driver_bound alice_riding 0%nat alice_riding_ride
            alice_riding_rider 0%nat alice_riding_driver 5 2%nat _ _ _ _ _);
    reflexivity.
Defined.

(** C6 fails where Alice ends her ride with rating 7: the call does not
    fail, 75 has left her wallet and reached Bob's, and 7 is among his
    ratings. *)
Lemma end_ride_rating_counterexample :
  ¬ (1 ≤ 7 ≤ 5) ∧
  rider_wallet <$> riders alice_riding !! 0%nat = Some 500 ∧
  estimated_fare <$> rides alice_riding !! 0%nat = Some 75 ∧
  ¬ fails (end_ride 0%nat 7 2%nat alice_riding) ∧
  rider_wallet <$> riders (snd (end_ride 0%nat 7 2%nat alice_riding)) !! 0%nat
    = Some 425 ∧
  driver_wallet <$> drivers (snd (end_ride 0%nat 7 2%nat alice_riding)) !! 0%nat
    = Some 75 ∧
  driver_rating <$> drivers (snd (end_ride 0%nat 7 2%nat alice_riding)) !! 0%nat
    = Some [7].
Proof.
  repeat split; try reflexivity; [lia |].
  intros [e He]. vm_compute in He. discriminate He.
Qed.

Lemma end_ride_accepts_any_rating_witness :
  fst (end_ride 0%nat 7 2%nat alice_riding) = Returned tt ∧
  (∃ rd', riders (snd (end_ride 0%nat 7 2%nat alice_riding)) !! 0%nat = Some rd' ∧
          rider_wallet rd' = 500 - 75) ∧
  (∃ dv', drivers (snd (end_ride 0%nat 7 2%nat alice_riding)) !! 0%nat = Some dv' ∧
          driver_wallet dv' = 0 + 75 ∧ driver_rating dv' = [] ++ [7]).
Proof.
  refine (end_ride_accepts_any_rating alice_riding 0%nat alice_riding_ride
            alice_riding_rider 0%nat alice_riding_driver 7 2%nat _ _ _ _ _);
    reflexivity.
Defined.

(** C7 fails twice over.  Starting Alice's ride again, at time 9, does not
    fail and overwrites the start timestamp; ending her ride before it was
    ever started does not fail either and takes it from Created straight to
    Ended, fare paid. *)
Lemma unguarded_transitions_counterexample :
  ride_status <$> rides alice_riding !! 0%nat = Some Started ∧
  ¬ fails (start_ride 0%nat 9%nat alice_riding) ∧
  start_time <$> rides alice_riding !! 0%nat = Some (Some 1%nat) ∧
  start_time <$> rides (snd (start_ride 0%nat 9%nat alice_riding)) !! 0%nat
    = Some (Some 9%nat) ∧
  ride_status <$> rides alice_matched !! 0%nat = Some Created ∧
  ¬ fails (end_ride 0%nat 5 2%nat alice_matched) ∧
  ride_status <$> rides (snd (end_ride 0%nat 5 2%nat alice_matched)) !! 0%nat
    = Some Ended ∧
  rider_wallet <$> riders (snd (end_ride 0%nat 5 2%nat alice_matched)) !! 0%nat
    = Some 425.
Proof.
  repeat split; try reflexivity;
    intros [e He]; vm_compute in He; discriminate He.
Qed.

Lemma start_and_end_unguarded_witness :
  start_ride 0%nat 9%nat alice_riding =
    (Returned tt,
     mkWorld (riders alice_riding) (drivers alice_riding) (vehicles alice_riding)
       (<[0%nat := assign_start_time (Some 9%nat) alice_riding_ride]>
          (rides alice_riding))
       (stdout alice_riding)) ∧
  ∀ rating,
    rides (snd (end_ride 0%nat rating 9%nat alice_riding)) =
      <[0%nat := assign_end_time (Some 9%nat) alice_riding_ride]>
        (rides alice_riding) ∧
    ∀ rd d dv,
      riders alice_riding !! rider alice_riding_ride = Some rd →
      driver alice_riding_ride = Some d →
      drivers alice_riding !! d = Some dv →
      fst (end_ride 0%nat rating 9%nat alice_riding) = Returned tt.
Proof.
  refine (start_and_end_unguarded alice_riding 0%nat alice_riding_ride 9%nat _).
  reflexivity.
Defined.

(** C8 fails on its last clause where Carol, holding 50, ends her ride of
    fare 75: her wallet is left alone, but the call returns as any other
    and raises nothing. *)
Lemma end_ride_raises_nothing_counterexample :
  rider_wallet <$> riders carol_matched !! 1%nat = Some 50 ∧
  estimated_fare <$> rides carol_matched !! 0%nat = Some 75 ∧
  geb 50 75 = false ∧
  ¬ fails (end_ride 0%nat 4 3%nat carol_matched) ∧
  fst (end_ride 0%nat 4 3%nat carol_matched) = Returned tt ∧
  rider_wallet <$> riders (snd (end_ride 0%nat 4 3%nat carol_matched)) !! 1%nat
    = Some 50.
Proof.
  repeat split; try reflexivity.
  intros [e He]. vm_compute in He. discriminate He.
Qed.

(** In [carol_riding_beside_dave] Carol holds 50 and Dave -20: the store as
    a whole has a wallet below zero, and Carol's stays at or above zero
    whatever is called.  Her ride costs 75, so ending it takes nothing. *)
Lemma rider_wallets_stay_nonneg_witness :
  (∀ ms, ∃ rd', riders (run_methods ms carol_riding_beside_dave) !! 1%nat = Some rd' ∧
                nonneg (rider_wallet rd')) ∧
  (∀ self r rating now,
     rides carol_riding_beside_dave !! self = Some r → rider r = 1%nat →
     if geb 50 (estimated_fare r) then
       riders (snd (end_ride self rating now carol_riding_beside_dave)) !! 1%nat =
         Some (assign_rider_wallet (50 - estimated_fare r) carol_riding_rider) ∧
       nonneg (50 - estimated_fare r)
     else
       fst (end_ride self rating now carol_riding_beside_dave) = Returned tt ∧
       riders (snd (end_ride self rating now carol_riding_beside_dave))
         = riders carol_riding_beside_dave ∧
       drivers (snd (end_ride self rating now carol_riding_beside_dave))
         = drivers carol_riding_beside_dave ∧
       stdout (snd (end_ride self rating now carol_riding_beside_dave))
         = stdout carol_riding_beside_dave ++ [MsgNotEnoughBalance]).
Proof.
  refine (rider_wallets_stay_nonneg (laws := ZNum_laws) carol_riding_beside_dave
            1%nat carol_riding_rider _ _); reflexivity.
Defined.

(** The figures of that store: Dave's wallet is below zero, Carol's ride is
    ride 0 at a fare of 75, and ending it leaves her 50. *)
Example carol_beside_dave :
  rider_wallet <$> riders carol_riding_beside_dave !! 2%nat = Some (-20) ∧
  ¬ wallets_nonneg carol_riding_beside_dave ∧
  rider <$> rides carol_riding_beside_dave !! 0%nat = Some 1%nat ∧
  estimated_fare <$> rides carol_riding_beside_dave !! 0%nat = Some 75 ∧
  fst (end_ride 0%nat 4 3%nat carol_riding_beside_dave) = Returned tt ∧
  rider_wallet <$> riders (snd (end_ride 0%nat 4 3%nat carol_riding_beside_dave))
    !! 1%nat = Some 50.
Proof.
  repeat split; try reflexivity.
  intros Hw. apply (list.Forall_lookup_1 _ _ 2%nat dave) in Hw; [| reflexivity].
  vm_compute in Hw. discriminate Hw.
Qed.

(** C9 fails on its first clause in [all_busy]: with no vehicle available
    [find_driver] does not fail, it returns [None]. *)
Lemma find_driver_none_counterexample :
  available all_busy 0%nat = false ∧
  available all_busy 1%nat = false ∧
  ¬ fails (find_driver pool (mkRideRequest 0%nat uptown) all_busy) ∧
  fst (find_driver pool (mkRideRequest 0%nat uptown) all_busy) = Returned None.
Proof.
  repeat split; try reflexivity.
  intros [e He]. vm_compute in He. discriminate He.
Qed.

Lemma find_driver_none_available_witness :
  find_driver pool (mkRideRequest 0%nat uptown) all_busy =
    (Returned None,
     mkWorld (riders all_busy) (drivers all_busy) (vehicles all_busy)
       (rides all_busy) (stdout all_busy ++ [MsgNoAvailableDriver])) ∧
  (rider_current_ride alice = None →
   request_ride 0%nat uptown pool all_busy =
     (Returned tt,
      mkWorld (riders all_busy) (drivers all_busy) (vehicles all_busy)
        (rides all_busy) (stdout all_busy ++ [MsgNoAvailableDriver]))).
Proof.
  refine (find_driver_none_available all_busy pool (mkRideRequest 0%nat uptown)
            alice _ _ _).
  - reflexivity.
  - repeat constructor; eexists; reflexivity.
  - repeat constructor.
Defined.

Lemma load_cash_adds_positive_witness :
  (gtb 25 0 = true →
   load_cash 0%nat 25 town =
     (Returned tt,
      mkWorld
        [mkRider "Alice" "alice@email.com" 1 "1234" (500 + 25) (10, 10) None; carol]
        [bob; john] [car; bike] [] [])) ∧
  (gtb 25 0 = false → load_cash 0%nat 25 town = (Returned tt, town)).
Proof.
  refine (load_cash_adds_positive town 0%nat alice 25 _).
  reflexivity.
Defined.

(** ** The further properties, in [town] *)

Lemma rider_matched_at_most_once_witness :
  (∃ r', riders (run [CallStartRide 0%nat 1%nat; CallEndRide 0%nat 5 2%nat]
                   alice_matched) !! 0%nat = Some r' ∧
         rider_current_ride r' = Some 0%nat) ∧
  ∀ dest pool,
    request_ride 0%nat dest pool
      (run [CallStartRide 0%nat 1%nat; CallEndRide 0%nat 5 2%nat] alice_matched)
    = (Returned tt,
       run [CallStartRide 0%nat 1%nat; CallEndRide 0%nat 5 2%nat] alice_matched).
Proof.
  refine (rider_matched_at_most_once alice_matched 0%nat alice_riding_rider
            0%nat _ _ [CallStartRide 0%nat 1%nat; CallEndRide 0%nat 5 2%nat]);
    reflexivity.
Defined.


Lemma unavailable_forever_witness :
  available
    (run [CallRequestRide 0%nat uptown pool; CallUpdateLocation 0%nat (10, 10);
          CallRequestRide 1%nat uptown pool] all_busy) 0%nat = false.
Proof.
  refine (unavailable_forever all_busy 0%nat _ _). reflexivity.
Defined.

Lemma find_driver_match_shape_witness :
  ∃ rd d drv v,
    riders town !! 0%nat = Some rd ∧
    d ∈ pool ∧
    drivers town !! d = Some drv ∧
    vehicles town !! driver_vehicle drv = Some v ∧
    status v = "available"%string ∧
    0%nat = length (rides town) ∧
    snd (find_driver pool (mkRideRequest 0%nat uptown) town) =
      mkWorld (riders town)
        (<[d := assign_driver_current_ride (Some 0%nat) drv]> (drivers town))
        (vehicles town)
        (rides town ++
           [mkRide (rider_current_location rd) uptown (Some d) 0%nat
              (driver_vehicle drv) None None
              (round2 (mul (math_dist (rider_current_location rd) uptown) (rate v)))])
        (stdout town ++
           [MsgRideMatched (driver_name drv)
              (round2 (mul (math_dist (rider_current_location rd) uptown) (rate v)))]).
Proof.
  refine (find_driver_match_shape town
            (snd (find_driver pool (mkRideRequest 0%nat uptown) town))
            pool (mkRideRequest 0%nat uptown) 0%nat _).
  reflexivity.
Defined.

Lemma end_ride_driverless_witness :
  (geb 500 75 = true →
     fst (end_ride 0%nat 5 2%nat hand_built) = Raised AttributeError ∧
     riders (snd (end_ride 0%nat 5 2%nat hand_built)) =
       <[0%nat := assign_rider_wallet (500 - 75) alice]> (riders hand_built) ∧
     drivers (snd (end_ride 0%nat 5 2%nat hand_built)) = drivers hand_built ∧
     rides (snd (end_ride 0%nat 5 2%nat hand_built)) =
       <[0%nat := assign_end_time (Some 2%nat) hand_built_ride]> (rides hand_built) ∧
     stdout (snd (end_ride 0%nat 5 2%nat hand_built)) = stdout hand_built) ∧
  (geb 500 75 = false →
     fst (end_ride 0%nat 5 2%nat hand_built) = Returned tt ∧
     riders (snd (end_ride 0%nat 5 2%nat hand_built)) = riders hand_built ∧
     drivers (snd (end_ride 0%nat 5 2%nat hand_built)) = drivers hand_built).
Proof.
  refine (end_ride_driverless hand_built 0%nat hand_built_ride alice 5 2%nat
            _ _ _); reflexivity.
Defined.

Lemma end_ride_twice_charges_twice_witness :
  end_ride 0%nat 3 4%nat (snd (end_ride 0%nat 5 2%nat alice_riding)) =
    (Returned tt,
     mkWorld
       (<[0%nat := assign_rider_wallet (500 - 75 - 75) alice_riding_rider]>
          (riders alice_riding))
       (<[0%nat := assign_driver_rating ([] ++ [5; 3])
                     (assign_driver_wallet (0 + 75 + 75) alice_riding_driver)]>
          (drivers alice_riding))
       (vehicles alice_riding)
       (<[0%nat := assign_end_time (Some 4%nat) alice_riding_ride]>
          (rides alice_riding))
       (stdout alice_riding ++ [MsgRideEnded 75; MsgRideEnded 75])).
Proof.
  refine (end_ride_twice_charges_twice alice_riding 0%nat alice_riding_ride
            alice_riding_rider 0%nat alice_riding_driver 5 2%nat 3 4%nat
            _ _ _ _ _ _); reflexivity.
Defined.

Lemma only_load_and_end_touch_accounts_witness :
  accounts
    (run [CallRequestRide 0%nat uptown pool; CallStartRide 0%nat 1%nat;
          CallUpdateLocation 0%nat (13, 14); CallStartDrive 0%nat] town)
  = accounts town.
Proof.
  refine (only_load_and_end_touch_accounts town
            [CallRequestRide 0%nat uptown pool; CallStartRide 0%nat 1%nat;
             CallUpdateLocation 0%nat (13, 14); CallStartDrive 0%nat] _).
  reflexivity.
Defined.

Lemma end_ride_touches_two_accounts_witness :
  (∀ j, j ≠ 0%nat →
     riders (snd (end_ride 0%nat 5 2%nat alice_riding)) !! j
       = riders alice_riding !! j) ∧
  (∀ j, j ≠ 0%nat →
     drivers (snd (end_ride 0%nat 5 2%nat alice_riding)) !! j
       = drivers alice_riding !! j) ∧
  vehicles (snd (end_ride 0%nat 5 2%nat alice_riding)) = vehicles alice_riding ∧
  ((∀ a b f : Z, a - f + (b + f) = a + b) →
   ∃ rd' dv',
     riders (snd (end_ride 0%nat 5 2%nat alice_riding)) !! 0%nat = Some rd' ∧
     drivers (snd (end_ride 0%nat 5 2%nat alice_riding)) !! 0%nat = Some dv' ∧
     rider_wallet rd' + driver_wallet dv' = 500 + 0).
Proof.
  refine (end_ride_touches_two_accounts alice_riding 0%nat alice_riding_ride
            alice_riding_rider 0%nat alice_riding_driver 5 2%nat _ _ _ _ _);
    reflexivity.
Defined.

(** ** The program around the store, in the office *)

(** The test run end to end: John, hired after the matcher was built, is
    on the company's list and on the matcher's, Alice is matched with Bob,
    the nearer of the two, and the ride is paid. *)
Example office_run :
  steps (Office.opening ++ Office.hiring ++ [StepAddDriver 0%nat 1%nat] ++
           Office.riding) start =
  mkProgram
    (mkWorld
       [mkRider "Alice" "alice@email.com" 1 "1234" 425 (10, 10) (Some 0%nat)]
       [mkDriver "Bob" "bob@email.com" 2 "5678" 75 (11, 10) 0%nat [5] (Some 0%nat);
        mkDriver "John" "john@email.com" 3 "8910" 0 (16, 18) 1%nat [] None]
       [car; bike]
       [mkRide (10, 10) (13, 14) (Some 0%nat) 0%nat 0%nat (Some 1%nat)
          (Some 2%nat) 75]
       [MsgRideMatched "Bob" 75; MsgRideEnded 75])
    4 [[0%nat; 1%nat]; [0%nat]; []] [Office.urban_go] [0%nat].
Proof. reflexivity. Qed.

Lemma matcher_sees_later_drivers_witness :
  fst (add_driver 0%nat 1%nat Office.opened) = Returned tt ∧
  (∀ req,
     RideMatching_find_driver 0%nat req (snd (add_driver 0%nat 1%nat Office.opened))
       = lift (find_driver ([0%nat] ++ [1%nat]) req)
           (snd (add_driver 0%nat 1%nat Office.opened))) ∧
  (∀ self dest,
     Rider_request_ride self dest 0%nat (snd (add_driver 0%nat 1%nat Office.opened))
       = lift (request_ride self dest ([0%nat] ++ [1%nat]))
           (snd (add_driver 0%nat 1%nat Office.opened))).
Proof.
  refine (matcher_sees_later_drivers Office.opened 0%nat Office.urban_go 0%nat
            [0%nat] 1%nat _ _ _); reflexivity.
Defined.

Lemma company_rides_stay_empty_witness :
  lists (steps (Office.opening ++ Office.hiring ++ Office.riding) start) !! 2%nat
    = Some [].
Proof.
  refine (company_rides_stay_empty
            (Office.opening ++ Office.hiring ++ Office.riding) 0%nat
            Office.urban_go _).
  reflexivity.
Defined.

Lemma rides_are_records_witness :
  (∀ ms, ∃ r', rides (run_methods ms alice_riding) !! 0%nat = Some r' ∧
               start_location r' = (10, 10) ∧
               end_location r' = uptown ∧
               rider r' = 0%nat ∧
               vehicle r' = 0%nat ∧
               estimated_fare r' = 75) ∧
  (∀ cs, ∃ r', rides (run cs alice_riding) !! 0%nat = Some r' ∧
               start_location r' = (10, 10) ∧
               end_location r' = uptown ∧
               rider r' = 0%nat ∧
               vehicle r' = 0%nat ∧
               driver r' = Some 0%nat ∧
               estimated_fare r' = 75) ∧
  (∀ d, set_driver 0%nat d alice_riding =
          (Returned tt,
           mkWorld (riders alice_riding) (drivers alice_riding)
             (vehicles alice_riding)
             (<[0%nat := assign_driver (Some d) alice_riding_ride]>
                (rides alice_riding))
             (stdout alice_riding))).
Proof.
  refine (rides_are_records alice_riding 0%nat alice_riding_ride _).
  reflexivity.
Defined.

(** John accepts Alice's ride, which Bob is driving: the ride is John's
    now, and nothing else about it has changed. *)
Example accept_ride_takes_over :
  rides (run_methods [MethodAcceptRide 1%nat 0%nat] alice_riding) =
    [mkRide (10, 10) uptown (Some 1%nat) 0%nat 0%nat (Some 1%nat) None 75] ∧
  driver_current_ride <$> drivers (run_methods [MethodAcceptRide 1%nat 0%nat]
                                     alice_riding) = [Some 0%nat; Some 0%nat].
Proof. split; reflexivity. Qed.

End Examples.
